(** * Task_5.py: validation of delimited records and the processing report

    A shallow embedding of [validate_record], [process_file] and the
    command-line entry point of [Task_5.py], with the properties of the
    specification stated over it.

    Layout:
    - [Py]: the Python built-ins the program calls ([str.strip],
      [str.split], [int], [float], string formatting, file iteration);
    - the program: [validate_record], [process_line], [scan],
      [report_lines], [process_file], [main];
    - the properties. *)

From Stdlib Require Import ZArith NArith String Ascii List Lia DecimalString.
From Stdlib Require Import Floats.SpecFloat Sorting.Sorted.
From stdpp Require Import gmap list.

Local Open Scope Z_scope.

(** ** Python values *)

(** A Python [str] is a sequence of Unicode code points. *)
Definition char := N.
Definition str := list char.

(** A Python [float] is an IEEE-754 binary64 number. *)
Definition float64 := spec_float.

(** The exceptions the program can meet. *)
Inductive exn :=
| ValueError (msg : str)
| FileNotFoundError (msg : str)
| OSError (msg : str).

(** A computation that returns a value or raises. *)
Inductive result (A : Type) :=
| Ret (a : A)
| Raise (e : exn).
Arguments Ret {A} a.
Arguments Raise {A} e.

#[global] Instance result_ret : MRet result := fun _ a => Ret a.
#[global] Instance result_bind : MBind result := fun _ _ f m =>
  match m with
  | Ret a => f a
  | Raise e => Raise e
  end.

(** What the program takes from the interpreter and what differs between
    interpreter builds: the Unicode database's table of decimal digits
    outside ASCII (consulted by [int] and [float]) and the algorithm
    of the built-in [sum] on floats (plain left-to-right addition, or
    compensated summation in recent releases). *)
Class Interpreter := {
  unicode_decimal : char → option Z;
  float_sum : list float64 → float64
}.

Module Py.

(** *** String literals

    The source file and the input file are UTF-8: [u8] decodes the bytes
    of a literal into code points. *)
Fixpoint utf8_decode (bs : list N) : str :=
  let cont (b : N) : N := (b - 128)%N in
  match bs with
  | [] => []
  | b :: r =>
      if (b <? 128)%N then b :: utf8_decode r
      else if (b <? 224)%N then
        match r with
        | b1 :: r1 => ((b - 192) * 64 + cont b1)%N :: utf8_decode r1
        | _ => []
        end
      else if (b <? 240)%N then
        match r with
        | b1 :: b2 :: r2 =>
            ((b - 224) * 4096 + cont b1 * 64 + cont b2)%N :: utf8_decode r2
        | _ => []
        end
      else
        match r with
        | b1 :: b2 :: b3 :: r3 =>
            ((b - 240) * 262144 + cont b1 * 4096 + cont b2 * 64 + cont b3)%N
              :: utf8_decode r3
        | _ => []
        end
  end.

Definition u8 (s : string) : str :=
  utf8_decode (map N_of_ascii (list_ascii_of_string s)).

(** *** Whitespace and [str.strip] *)

(** [str.isspace] on one code point: the characters [str.strip()] removes. *)
Definition is_space (c : char) : bool :=
  ((9 <=? c) && (c <=? 13) || (28 <=? c) && (c <=? 32)
   || (c =? 133) || (c =? 160) || (c =? 5760)
   || (8192 <=? c) && (c <=? 8202)
   || (c =? 8232) || (c =? 8233) || (c =? 8239) || (c =? 8287)
   || (c =? 12288))%N.

Fixpoint lstrip (s : str) : str :=
  match s with
  | c :: s' => if is_space c then lstrip s' else s
  | [] => []
  end.

Definition rstrip (s : str) : str := rev (lstrip (rev s)).

Definition strip (s : str) : str := rstrip (lstrip s).

(** Truth value of a string: non-empty. *)
Definition truthy {A} (l : list A) : bool :=
  match l with [] => false | _ => true end.

(** *** [str.split(sep)] *)

Fixpoint starts_with (sep s : str) : bool :=
  match sep, s with
  | [], _ => true
  | a :: sep', b :: s' => (a =? b)%N && starts_with sep' s'
  | _ :: _, [] => false
  end.

(** [split_from sep s skip cur]: [cur] is the current field, reversed;
    [skip] counts the characters of a separator still to be passed. *)
Fixpoint split_from (sep s : str) (skip : nat) (cur : str) : list str :=
  match s with
  | [] => [rev cur]
  | c :: s' =>
      match skip with
      | S k => split_from sep s' k cur
      | O =>
          if starts_with sep s
          then rev cur :: split_from sep s' (length sep - 1) []
          else split_from sep s' 0 (c :: cur)
      end
  end.

(** [s.split(sep)]: [ValueError] on the empty separator. *)
Definition split (s sep : str) : result (list str) :=
  match sep with
  | [] => Raise (ValueError (u8 "empty separator"))
  | _ => Ret (split_from sep s 0 [])
  end.

(** [sep.join(l)] *)
Fixpoint join (sep : str) (l : list str) : str :=
  match l with
  | [] => []
  | [x] => x
  | x :: r => x ++ sep ++ join sep r
  end.

(** *** Decimal rendering of integers: [str(n)], [f"{n}"] *)

Definition str_of_Z (z : Z) : str := u8 (NilEmpty.string_of_int (Z.to_int z)).
Definition str_of_nat (n : nat) : str := str_of_Z (Z.of_nat n).

(** [s.rjust(w)] and [s.ljust(w)]: what a format width does to a number
    and to a string. *)
Definition rjust (w : nat) (s : str) : str := replicate (w - length s) 32%N ++ s.
Definition ljust (w : nat) (s : str) : str := s ++ replicate (w - length s) 32%N.

(** *** Numeric parsing: what [int] and [float] share *)

Section Numeric.
Context `{Interpreter}.

(** Before parsing, a string with a character outside ASCII has its
    Unicode spaces turned into [' '], its Unicode decimal digits into
    ASCII digits and every other such character into ['?']. *)
Definition to_ascii (c : char) : char :=
  if (c <? 128)%N then c
  else if is_space c then 32%N
  else match unicode_decimal c with
       | Some d => Z.to_N (48 + d)
       | None => 63%N
       end.

(** The whitespace the numeric parsers skip (the C locale's). *)
Definition is_cspace (c : char) : bool :=
  ((9 <=? c) && (c <=? 13) || (c =? 32))%N.

Fixpoint lskip (s : str) : str :=
  match s with
  | c :: s' => if is_cspace c then lskip s' else s
  | [] => []
  end.

Definition skip_spaces (s : str) : str := rev (lskip (rev (lskip s))).

Definition digit_val (c : char) : option Z :=
  if ((48 <=? c) && (c <=? 57))%N then Some (Z.of_N c - 48) else None.

Definition is_digit (c : char) : bool :=
  match digit_val c with Some _ => true | None => false end.

(** An optional sign: [true] for ['-']. *)
Definition take_sign (s : str) : bool * str :=
  match s with
  | c :: s' =>
      if (c =? 45)%N then (true, s')
      else if (c =? 43)%N then (false, s')
      else (false, s)
  | [] => (false, [])
  end.

(** *** [int(s)], base 10

    Digits with single underscores between them; [prev_digit] tells
    whether the previous character was a digit. *)
Fixpoint int_digits (s : str) (acc : Z) (prev_digit : bool) : option Z :=
  match s with
  | [] => if prev_digit then Some acc else None
  | c :: s' =>
      match digit_val c with
      | Some d => int_digits s' (10 * acc + d) true
      | None =>
          if (c =? 95)%N && prev_digit then int_digits s' acc false else None
      end
  end.

(** [None] stands for [ValueError]. The interpreter's optional cap on the
    number of digits is taken as switched off. *)
Definition int (s : str) : option Z :=
  let '(neg, body) := take_sign (skip_spaces (map to_ascii s)) in
  v ← int_digits body 0 false;
  Some (if neg then - v else v).

(** *** [float(s)] *)

(** Underscores are dropped where they stand between two digits and
    refused elsewhere; [prev] is the previous character. *)
Fixpoint drop_underscores (s : str) (prev : char) : option str :=
  match s with
  | [] => if (prev =? 95)%N then None else Some []
  | c :: s' =>
      if (c =? 95)%N then
        if is_digit prev then drop_underscores s' c else None
      else if (prev =? 95)%N && negb (is_digit c) then None
      else r ← drop_underscores s' c; Some (c :: r)
  end.

(** The leading digits of [s]: their value, their number, the rest. *)
Fixpoint span_digits (s : str) (acc : Z) (n : Z) : Z * Z * str :=
  match s with
  | c :: s' =>
      match digit_val c with
      | Some d => span_digits s' (10 * acc + d) (n + 1)
      | None => (acc, n, s)
      end
  | [] => (acc, n, [])
  end.

(** [digits [. digits] [(e|E) [sign] digits]] with a digit in the
    mantissa, the whole string consumed: the mantissa as an integer and
    the power of ten to apply. *)
Definition parse_decimal (s : str) : option (Z * Z) :=
  let '(ip, ni, r1) := span_digits s 0 0 in
  let '(m, nf, r2) :=
    match r1 with
    | c :: r =>
        if (c =? 46)%N then
          let '(m, nf, r') := span_digits r ip 0 in (m, nf, r')
        else (ip, 0, r1)
    | [] => (ip, 0, r1)
    end in
  if ni + nf =? 0 then None
  else
    match r2 with
    | [] => Some (m, - nf)
    | c :: r =>
        if (c =? 101)%N || (c =? 69)%N then
          let '(eneg, r3) := take_sign r in
          let '(ev, ne, r4) := span_digits r3 0 0 in
          if (ne =? 0) || truthy r4 then None
          else Some (m, (if eneg then - ev else ev) - nf)
        else None
    end.

(** [num / den], rounded to the nearest binary64, ties to even. The
    quotient is taken with more than a thousand extra bits and a sticky
    bit, then rounded once. *)
Definition float_of_ratio (neg : bool) (num den : Z) : float64 :=
  if num =? 0 then S754_zero neg
  else
    let p := 1080 + Z.log2 den in
    let q := Z.shiftl num p / den in
    let sticky := if Z.shiftl num p mod den =? 0 then 0 else 1 in
    let m := 2 * q + sticky in
    binary_normalize 53 1024 (if neg then - m else m) (- (p + 1)) neg.

Definition float_of_decimal (neg : bool) (m e : Z) : float64 :=
  float_of_ratio neg (m * 10 ^ Z.max e 0) (10 ^ Z.max (- e) 0).

(** [float(n)] for an integer. *)
Definition float_of_Z (n : Z) : float64 :=
  float_of_ratio (n <? 0) (Z.abs n) 1.

Definition lower (c : char) : char :=
  if ((65 <=? c) && (c <=? 90))%N then (c + 32)%N else c.

Definition ci_eqb (s : str) (lit : string) : bool :=
  bool_decide (map lower s = u8 lit).

(** [None] stands for [ValueError]. Overflow gives an infinity and
    underflow a signed zero, as the interpreter asks of its parser. *)
Definition float (s : str) : option float64 :=
  t ← drop_underscores (map to_ascii s) 0%N;
  let '(neg, body) := take_sign (skip_spaces t) in
  match parse_decimal body with
  | Some (m, e) => Some (float_of_decimal neg m e)
  | None =>
      if ci_eqb body "inf" || ci_eqb body "infinity"
      then Some (S754_infinity neg)
      else if ci_eqb body "nan" then Some S754_nan
      else None
  end.

End Numeric.

(** *** Float comparison, arithmetic and formatting *)

Definition fzero : float64 := S754_zero false.
Definition flt (x y : float64) : bool := SFltb x y.
Definition fle (x y : float64) : bool := SFleb x y.
Definition fadd (x y : float64) : float64 := SFadd 53 1024 x y.
Definition fdiv (x y : float64) : float64 := SFdiv 53 1024 x y.

(** [max(l)] and [min(l)] on a non-empty list: the first element is
    kept until a later one compares strictly greater (smaller). *)
Definition py_max {A} (lt : A → A → bool) (x : A) (l : list A) : A :=
  fold_left (fun best item => if lt best item then item else best) l x.
Definition py_min {A} (lt : A → A → bool) (x : A) (l : list A) : A :=
  fold_left (fun best item => if lt item best then item else best) l x.

(** [n / d] rounded to an integer, ties to even. *)
Definition div_half_even (n d : Z) : Z :=
  let q := n / d in
  let r := n mod d in
  if (2 * r <? d) then q
  else if (d <? 2 * r) then q + 1
  else if Z.even q then q else q + 1.

(** [f"{x:.2f}"]: the exact binary value rounded to two decimals. *)
Definition format_2f (x : float64) : str :=
  let sign (s : bool) : str := if s then [45%N] else [] in
  match x with
  | S754_zero s => sign s ++ u8 "0.00"
  | S754_infinity s => sign s ++ u8 "inf"
  | S754_nan => u8 "nan"
  | S754_finite s m e =>
      let n :=
        if 0 <=? e then Z.pos m * 2 ^ e * 100
        else div_half_even (Z.pos m * 100) (2 ^ (- e)) in
      sign s ++ str_of_Z (n / 100) ++ [46%N]
        ++ str_of_Z (n mod 100 / 10) ++ str_of_Z (n mod 10)
  end.

(** *** Reading a text file

    Iterating over a file opened in text mode yields its lines, each with
    its newline; ["\r\n"] and ["\r"] are read as ["\n"]. *)
Fixpoint universal_newlines (s : str) (after_cr : bool) : str :=
  match s with
  | [] => []
  | c :: s' =>
      if (c =? 13)%N then 10%N :: universal_newlines s' true
      else if (c =? 10)%N && after_cr then universal_newlines s' false
      else c :: universal_newlines s' false
  end.

Fixpoint lines_from (s : str) (cur : str) : list str :=
  match s with
  | [] => if truthy cur then [rev cur] else []
  | c :: s' =>
      if (c =? 10)%N then rev (c :: cur) :: lines_from s' []
      else lines_from s' (c :: cur)
  end.

Definition file_lines (text : str) : list str :=
  lines_from (universal_newlines text false) [].

End Py.

Import Py.

(** ** The file system and the console *)

(** A path holds a text file, or something whose opening raises an
    [OSError] with the given message (a directory, a file without
    permission, bytes that are not UTF-8). *)
Inductive node :=
| File (text : str)
| Blocked (msg : str).

Definition exn_message (e : exn) : str :=
  match e with
  | ValueError msg | FileNotFoundError msg | OSError msg => msg
  end.

(** [open(path, 'r', encoding='utf-8')] and reading the whole file. *)
Definition open_read (fs : gmap str node) (path : str) : result str :=
  match fs !! path with
  | None =>
      Raise (FileNotFoundError (u8 "[Errno 2] No such file or directory: '"
                                  ++ path ++ u8 "'"))
  | Some (Blocked msg) => Raise (OSError msg)
  | Some (File text) => Ret text
  end.

(** [open(path, 'w', encoding='utf-8')] and [f.write(text)]: the file is
    created or overwritten. *)
Definition open_write (fs : gmap str node) (path text : str)
  : result (gmap str node) :=
  match fs !! path with
  | Some (Blocked msg) => Raise (OSError msg)
  | _ => Ret (<[path := File text]> fs)
  end.

(** What a run leaves behind: the lines printed, the file system, and the
    status given to [sys.exit], if it was called. *)
Record outcome := {
  printed : list str;
  fs_after : gmap str node;
  exit_code : option Z
}.

(** ** The program *)

(** A valid record: the dict with keys ['id'], ['name'], ['value'] and
    ['original']. *)
Record parsed := {
  rec_id : Z;
  rec_name : str;
  rec_value : float64;
  rec_original : str
}.

(** A rejected record: line number, stripped line, errors. *)
Definition rejected : Type := nat * str * list str.

(** The running state of [process_file]. [error_counts] is the
    [defaultdict(int)], in insertion order. *)
Record state := {
  total_records : nat;
  valid_records : list parsed;
  invalid_records : list rejected;
  error_counts : list (str * nat);
  seen_ids : gset Z
}.

Definition initial_state : state :=
  {| total_records := 0; valid_records := []; invalid_records := [];
     error_counts := []; seen_ids := ∅ |}.

(** [error_counts[error] += 1] *)
Fixpoint count_error (error : str) (counts : list (str * nat))
  : list (str * nat) :=
  match counts with
  | [] => [(error, 1%nat)]
  | (k, n) :: rest =>
      if bool_decide (k = error) then (k, S n) :: rest
      else (k, n) :: count_error error rest
  end.

(** The messages of [validate_record] and [process_file]. *)
Definition msg_field_count (n : nat) : str :=
  u8 "Ожидается 3 поля, получено " ++ str_of_nat n.
Definition msg_empty_id : str := u8 "Пустой идентификатор".
Definition msg_duplicate_id : str := u8 "Дублирующийся идентификатор".
Definition msg_bad_id : str := u8 "Некорректный формат идентификатора".
Definition msg_empty_name : str := u8 "Пустое название".
Definition msg_empty_value : str := u8 "Пустое значение".
Definition msg_negative_value : str := u8 "Отрицательное значение".
Definition msg_bad_value : str := u8 "Некорректное числовое значение".
Definition msg_internal_id : str :=
  u8 "Внутренняя ошибка: не удалось преобразовать ID".
Definition msg_internal : str := u8 "Внутренняя ошибка обработки".

Definition label_id (error : str) : str := u8 "ID: " ++ error.
Definition label_name (error : str) : str := u8 "Name: " ++ error.
Definition label_value (error : str) : str := u8 "Value: " ++ error.

Section Program.
Context `{Interpreter}.

(** The checks of the three fields (lines 15-39). *)
Definition check_id (id_str : str) (seen_ids : gset Z) : list str :=
  if negb (truthy (strip id_str)) then [msg_empty_id]
  else
    match int id_str with
    | Some id_num =>
        if bool_decide (id_num ∈ seen_ids) then [msg_duplicate_id] else []
    | None => [msg_bad_id]
    end.

Definition check_name (name : str) : list str :=
  if negb (truthy (strip name)) then [msg_empty_name] else [].

Definition check_value (value_str : str) : list str :=
  if negb (truthy (strip value_str)) then [msg_empty_value]
  else
    match float value_str with
    | Some value => if flt value fzero then [msg_negative_value] else []
    | None => [msg_bad_value]
    end.

(** Lines 52-58: the identifier is parsed again and recorded. *)
Definition register_id (id_str : str) (seen_ids : gset Z)
  : bool * list str * gset Z :=
  match int id_str with
  | Some id_num => (true, [], {[id_num]} ∪ seen_ids)
  | None => (false, [msg_internal_id], seen_ids)
  end.

(** [validate_record(record, delimiter, seen_ids)]: the pair returned and
    the set [seen_ids] after the call. *)
Definition validate_record (record delimiter : str) (seen_ids : gset Z)
  : result (bool * list str * gset Z) :=
  parts ← split (strip record) delimiter;
  if negb (length parts =? 3)%nat then
    Ret (false, [msg_field_count (length parts)], seen_ids)
  else
    match parts with
    | [id_str; name; value_str] =>
        let id_errors := check_id id_str seen_ids in
        let name_errors := check_name name in
        let value_errors := check_value value_str in
        let all_errors := [] in
        let all_errors :=
          if truthy id_errors then all_errors ++ map label_id id_errors
          else all_errors in
        let all_errors :=
          if truthy name_errors then all_errors ++ map label_name name_errors
          else all_errors in
        let all_errors :=
          if truthy value_errors
          then all_errors ++ map label_value value_errors
          else all_errors in
        if truthy all_errors then Ret (false, all_errors, seen_ids)
        else Ret (register_id id_str seen_ids)
    | _ => Raise (ValueError (u8 "not enough values to unpack"))
    end.

(** The second parse of an accepted line (lines 75-85); [None] stands for
    the [ValueError] or [IndexError] the source catches. *)
Definition parse_record (parts : list str) (line : str) : option parsed :=
  id_num ← parts !! 0%nat ≫= int;
  name ← parts !! 1%nat;
  value ← parts !! 2%nat ≫= float;
  Some {| rec_id := id_num; rec_name := name; rec_value := value;
          rec_original := strip line |}.

(** The body of the loop (lines 71-92). *)
Definition process_line (delimiter : str) (st : state) (line_num : nat)
    (line : str) : result state :=
  let total := S (total_records st) in
  '(is_valid, errors, seen) ← validate_record line delimiter (seen_ids st);
  if is_valid : bool then
    parts ← split (strip line) delimiter;
    match parse_record parts line with
    | Some r =>
        Ret {| total_records := total;
               valid_records := valid_records st ++ [r];
               invalid_records := invalid_records st;
               error_counts := error_counts st;
               seen_ids := seen |}
    | None =>
        Ret {| total_records := total;
               valid_records := valid_records st;
               invalid_records :=
                 invalid_records st ++ [(line_num, strip line, [msg_internal])];
               error_counts := count_error msg_internal (error_counts st);
               seen_ids := seen |}
    end
  else
    Ret {| total_records := total;
           valid_records := valid_records st;
           invalid_records := invalid_records st ++ [(line_num, strip line, errors)];
           error_counts :=
             fold_left (fun counts error => count_error error counts)
                       errors (error_counts st);
           seen_ids := seen |}.

(** [for line_num, line in enumerate(f, start=1)] *)
Fixpoint scan (delimiter : str) (st : state) (line_num : nat)
    (lines : list str) : result state :=
  match lines with
  | [] => Ret st
  | line :: rest =>
      st' ← process_line delimiter st line_num line;
      scan delimiter st' (S line_num) rest
  end.

(** *** The aggregates (lines 100-112) *)

Record stats := {
  avg_value : float64;
  max_value : float64;
  min_value : float64;
  min_id : Z;
  max_id : Z;
  unique_ids_count : nat
}.

(** In the branch without valid records the source binds the integer [0]
    to every aggregate; under [:.2f] it prints as the float zero does. *)
Definition aggregate (valid_records : list parsed) : stats :=
  match valid_records with
  | r :: rest =>
      let values := map rec_value valid_records in
      let ids := map rec_id valid_records in
      {| avg_value :=
           fdiv (float_sum values) (float_of_Z (Z.of_nat (length values)));
         max_value := py_max flt (rec_value r) (map rec_value rest);
         min_value := py_min flt (rec_value r) (map rec_value rest);
         min_id := py_min Z.ltb (rec_id r) (map rec_id rest);
         max_id := py_max Z.ltb (rec_id r) (map rec_id rest);
         unique_ids_count := size (list_to_set ids : gset Z) |}
  | [] =>
      {| avg_value := fzero; max_value := fzero; min_value := fzero;
         min_id := 0; max_id := 0; unique_ids_count := 0 |}
  end.

(** *** The report (lines 114-157) *)

Definition nl : str := [10%N].

(** [sorted(l)] and [sorted(l, key=...)]: a stable sort. *)
Fixpoint insert_sorted {A} (le : A → A → bool) (x : A) (l : list A) : list A :=
  match l with
  | [] => [x]
  | y :: r => if le x y then x :: l else y :: insert_sorted le x r
  end.
Definition sorted {A} (le : A → A → bool) (l : list A) : list A :=
  fold_right (insert_sorted le) [] l.

(** The order of strings: by code point, a prefix first. *)
Fixpoint str_compare (a b : str) : comparison :=
  match a, b with
  | [], [] => Eq
  | [], _ :: _ => Lt
  | _ :: _, [] => Gt
  | x :: a', y :: b' =>
      match (x ?= y)%N with
      | Eq => str_compare a' b'
      | c => c
      end
  end.

(** The order of the pairs of [error_counts.items()]. *)
Definition item_le (x y : str * nat) : bool :=
  match str_compare x.1 y.1 with
  | Lt => true
  | Gt => false
  | Eq => (x.2 <=? y.2)%nat
  end.

Definition no_invalid_line : str := u8 "  Некорректных записей не найдено.".
Definition no_valid_line : str := u8 "  Корректных записей не найдено.".
Definition invalid_heading : str := nl ++ u8 "Детализация некорректных записей:".
Definition valid_heading : str := nl ++ u8 "Корректные записи:".

(** Lines 114-128. *)
Definition summary_lines (st : state) : list str :=
  let a := aggregate (valid_records st) in
  [ replicate 70 61%N;
    u8 "ОТЧЁТ ОБ ОБРАБОТКЕ ДАННЫХ";
    replicate 70 61%N;
    u8 "Общее количество записей: " ++ str_of_nat (total_records st);
    u8 "Корректных записей: " ++ str_of_nat (length (valid_records st));
    u8 "Некорректных записей: " ++ str_of_nat (length (invalid_records st));
    u8 "Уникальных идентификаторов: " ++ str_of_nat (unique_ids_count a);
    u8 "Общее количество ошибок: "
      ++ str_of_nat (foldr Nat.add 0%nat (map snd (error_counts st)));
    nl ++ u8 "Агрегированная статистика (по корректным записям):";
    u8 "  Диапазон идентификаторов: " ++ str_of_Z (min_id a) ++ u8 " - "
      ++ str_of_Z (max_id a);
    u8 "  Среднее значение value: " ++ format_2f (avg_value a);
    u8 "  Максимальное значение value: " ++ format_2f (max_value a);
    u8 "  Минимальное значение value: " ++ format_2f (min_value a) ].

(** Lines 130-132. *)
Definition tally_lines (st : state) : list str :=
  (nl ++ u8 "Полный список ошибок (по типам):")
    :: map (fun '(error, count) =>
              u8 "  - " ++ error ++ u8 ": " ++ str_of_nat count)
           (sorted item_le (error_counts st)).

(** Lines 137-145: one rejected record. *)
Definition rejected_lines (r : rejected) : list str :=
  let '(line_num, record, errors) := r in
  (if (length errors =? 1)%nat then
     [ u8 "  Строка " ++ str_of_nat line_num ++ u8 ": " ++ record;
       u8 "      Ошибка: " ++ nth 0 errors [] ]
   else
     [ u8 "  Строка " ++ str_of_nat line_num ++ u8 ": " ++ record;
       u8 "      Обнаружено " ++ str_of_nat (length errors) ++ u8 " ошибок:" ]
     ++ imap (fun i error =>
                u8 "        " ++ str_of_nat (S i) ++ u8 ". " ++ error)
             errors)
  ++ [[]].

(** Lines 134-147. *)
Definition invalid_lines (st : state) : list str :=
  invalid_heading
    :: (if truthy (invalid_records st)
        then concat (map rejected_lines (invalid_records st))
        else [no_invalid_line]).

(** Line 153. *)
Definition valid_line (r : parsed) : str :=
  u8 "  ID: " ++ rjust 4 (str_of_Z (rec_id r))
    ++ u8 " | Название: " ++ ljust 15 (rec_name r)
    ++ u8 " | Value: " ++ rjust 7 (format_2f (rec_value r)).

(** Lines 149-155. *)
Definition valid_lines (st : state) : list str :=
  valid_heading
    :: (if truthy (valid_records st)
        then map valid_line
               (sorted (fun x y => rec_id x <=? rec_id y) (valid_records st))
        else [no_valid_line]).

Definition report_lines (st : state) : list str :=
  summary_lines st ++ tally_lines st ++ invalid_lines st ++ valid_lines st.

Definition report_text (st : state) : str := join nl (report_lines st).

(** *** [process_file] *)

(** Lines 68-98: the scan of the input file. *)
Definition read_and_scan (fs : gmap str node) (input_path delimiter : str)
  : result state :=
  text ← open_read fs input_path;
  scan delimiter initial_state 1 (file_lines text).

Definition msg_not_found (input_path : str) : str :=
  u8 "Ошибка: файл '" ++ input_path ++ u8 "' не найден.".
Definition msg_read_error (e : exn) : str :=
  u8 "Ошибка при чтении файла: " ++ exn_message e.
Definition msg_saved (output_path : str) : str :=
  u8 "Отчёт сохранён в файл: " ++ output_path.
Definition msg_write_error (e : exn) : str :=
  u8 "Ошибка при сохранении отчёта: " ++ exn_message e.

Definition process_file (fs : gmap str node)
    (input_path delimiter output_path : str) : outcome :=
  match read_and_scan fs input_path delimiter with
  | Raise (FileNotFoundError _) =>
      {| printed := [msg_not_found input_path]; fs_after := fs;
         exit_code := Some 1 |}
  | Raise e =>
      {| printed := [msg_read_error e]; fs_after := fs; exit_code := Some 1 |}
  | Ret st =>
      match open_write fs output_path (report_text st) with
      | Ret fs' =>
          {| printed := [msg_saved output_path]; fs_after := fs';
             exit_code := None |}
      | Raise e =>
          {| printed := [msg_write_error e]; fs_after := fs;
             exit_code := None |}
      end
  end.

(** *** The entry point (lines 167-182) *)

Definition usage : list str :=
  [ u8 "Использование: python data_processor.py <input_file> [delimiter] [output_file]";
    u8 "Пример: python data_processor.py data.txt ',' report.txt";
    nl ++ u8 "Формат данных (3 поля): id,name,value";
    u8 "  - id: уникальный целочисленный идентификатор (обязательное поле)";
    u8 "  - name: непустое название (обязательное поле)";
    u8 "  - value: неотрицательное число (обязательное поле)";
    nl ++ u8 "Программа обнаруживает ВСЕ ошибки в каждой строке." ].

(** [argv] is [sys.argv]: the script's name, then the arguments. *)
Definition main (argv : list str) (fs : gmap str node) : outcome :=
  if (length argv <? 2)%nat then
    {| printed := usage; fs_after := fs; exit_code := Some 1 |}
  else
    let input_file := nth 1 argv [] in
    let delimiter := if (2 <? length argv)%nat then nth 2 argv [] else u8 "," in
    let output_file :=
      if (3 <? length argv)%nat then nth 3 argv [] else u8 "report.txt" in
    process_file fs input_file delimiter output_file.

(** The status the process ends with. *)
Definition exit_status (o : outcome) : Z := default 0 (exit_code o).

End Program.

(** The interpreter the examples run on: no decimal digit outside ASCII,
    and [sum] adding from left to right, starting from [0]. *)
Definition plain_interpreter : Interpreter :=
  {| unicode_decimal := fun _ => None;
     float_sum := fun l => fold_left fadd l fzero |}.

(** ** The vocabulary of the properties *)

Section Vocabulary.
Context `{Interpreter}.

(** The errors of a three-field line, as lines 41-47 assemble them. *)
Definition field_errors (id_str name value_str : str) (seen_ids : gset Z)
  : list str :=
  map label_id (check_id id_str seen_ids)
    ++ map label_name (check_name name)
    ++ map label_value (check_value value_str).

(** The identifiers of the records accepted so far. *)
Definition accepted_ids (st : state) : list Z := rec_id <$> valid_records st.

(** The two outcomes of a line: [r] joins the valid records, or [rej]
    joins the invalid ones. *)
Definition accepted_by (st st' : state) (r : parsed) : Prop :=
  valid_records st' = valid_records st ++ [r]
  ∧ invalid_records st' = invalid_records st
  ∧ seen_ids st' = {[rec_id r]} ∪ seen_ids st.

Definition rejected_by (st st' : state) (rej : rejected) : Prop :=
  valid_records st' = valid_records st
  ∧ invalid_records st' = invalid_records st ++ [rej]
  ∧ seen_ids st' = seen_ids st.

(** What holds of the state between two lines. *)
Definition consistent (st : state) : Prop :=
  seen_ids st = list_to_set (accepted_ids st)
  ∧ NoDup (accepted_ids st)
  ∧ total_records st
    = (length (valid_records st) + length (invalid_records st))%nat.

(** What the validator has checked of every record in [valid_records]. *)
Definition checked (r : parsed) : Prop :=
  strip (rec_name r) ≠ []
  ∧ (fle fzero (rec_value r) = true ∨ rec_value r = S754_nan).

(** The errors of a three-field line as the specification lists them
    (section 4.1, rules 2 to 5): per field, the first rule that applies;
    the fields in the order id, name, value; each error under its label. *)
Definition spec_id_errors (id_str : str) (seen_ids : gset Z) : list str :=
  if bool_decide (strip id_str = []) then [u8 "ID: Пустой идентификатор"]
  else
    match int id_str with
    | None => [u8 "ID: Некорректный формат идентификатора"]
    | Some id_num =>
        if bool_decide (id_num ∈ seen_ids)
        then [u8 "ID: Дублирующийся идентификатор"]
        else []
    end.

Definition spec_name_errors (name : str) : list str :=
  if bool_decide (strip name = []) then [u8 "Name: Пустое название"] else [].

Definition spec_value_errors (value_str : str) : list str :=
  if bool_decide (strip value_str = []) then [u8 "Value: Пустое значение"]
  else
    match float value_str with
    | None => [u8 "Value: Некорректное числовое значение"]
    | Some value =>
        if flt value fzero then [u8 "Value: Отрицательное значение"] else []
    end.

Definition spec_errors (id_str name value_str : str) (seen_ids : gset Z)
  : list str :=
  spec_id_errors id_str seen_ids ++ spec_name_errors name
    ++ spec_value_errors value_str.

(** [error_counts[error]]: the count under a message, [0] when it has
    none. *)
Fixpoint tally_get (error : str) (counts : list (str * nat)) : nat :=
  match counts with
  | [] => 0%nat
  | (k, n) :: rest => if bool_decide (k = error) then n else tally_get error rest
  end.

(** All the errors of the rejected records, in the order of the report. *)
Definition reported_errors (st : state) : list str :=
  concat (map (fun rej : rejected => rej.2) (invalid_records st)).

(** The messages of [validate_record] begin with ["О"], ["I"], ["N"] or
    ["V"]; the internal ones begin with ["В"]. *)
Definition begins_like_validation (error : str) : Prop :=
  head error = Some 1054%N ∨ head error = Some 73%N
  ∨ head error = Some 78%N ∨ head error = Some 86%N.

End Vocabulary.

(** The specification's scenario of four lines (section 8). *)
Definition scenario_text : str :=
  u8 "1,Widget,10.5" ++ nl ++ u8 "1,Gadget,-3" ++ nl ++ u8 ",NoId,5" ++ nl
    ++ u8 "abc,Name,notanumber".

(** The state after the scan of the scenario, on the plain interpreter. *)
Definition scenario_state : state :=
  match @scan plain_interpreter (u8 ",") initial_state 1
          (file_lines scenario_text) with
  | Ret st => st
  | Raise _ => initial_state
  end.

#[global] Arguments u8 : simpl never.
#[global] Arguments str_of_Z : simpl never.
#[global] Arguments str_of_nat : simpl never.

(** Closed decidable propositions are settled by evaluating their
    decision procedure. *)
Ltac refute_by_computation :=
  match goal with
  | |- ¬ ?P => apply (bool_decide_eq_false_1 P); vm_compute; reflexivity
  end.
Ltac prove_by_computation :=
  match goal with
  | |- ?P => apply (bool_decide_eq_true_1 P); vm_compute; reflexivity
  end.

(** ** Properties of the built-ins *)

Lemma lstrip_spaces (ws s : str) :
  Forall (fun c => is_space c = true) ws → lstrip (ws ++ s) = lstrip s.
Proof.
  induction 1 as [|c ws Hc _ IH]; simpl; [done|].
  by rewrite Hc.
Qed.

Lemma strip_leading (ws s : str) :
  Forall (fun c => is_space c = true) ws → strip (ws ++ s) = strip s.
Proof. intros Hws. unfold strip. by rewrite lstrip_spaces. Qed.

Lemma lstrip_app_r (s ws : str) :
  lstrip s ≠ [] → lstrip (s ++ ws) = lstrip s ++ ws.
Proof.
  induction s as [|c s IH]; simpl; [done|].
  destruct (is_space c); [exact IH | done].
Qed.

Lemma lstrip_all_spaces (s : str) :
  lstrip s = [] → Forall (fun c => is_space c = true) s.
Proof.
  induction s as [|c s IH]; simpl; [constructor|].
  destruct (is_space c) eqn:Hc; [|done].
  intros Hs. constructor; auto.
Qed.

Lemma lstrip_spaces_all (s ws : str) :
  Forall (fun c => is_space c = true) s →
  Forall (fun c => is_space c = true) ws → lstrip (s ++ ws) = [].
Proof.
  intros Hs Hws. rewrite lstrip_spaces by done.
  induction Hws as [|c ws Hc _ IH]; simpl; [done|]. by rewrite Hc.
Qed.

Lemma rstrip_spaces (s ws : str) :
  Forall (fun c => is_space c = true) ws → rstrip (s ++ ws) = rstrip s.
Proof.
  intros Hws. unfold rstrip. rewrite rev_app_distr.
  rewrite lstrip_spaces; [done|]. by apply Forall_rev.
Qed.

Lemma strip_trailing (s ws : str) :
  Forall (fun c => is_space c = true) ws → strip (s ++ ws) = strip s.
Proof.
  intros Hws. unfold strip.
  destruct (lstrip s) as [|c t] eqn:Hs.
  - rewrite lstrip_spaces_all; [done| |done].
    by apply lstrip_all_spaces.
  - rewrite lstrip_app_r, Hs; [|by rewrite Hs].
    by apply rstrip_spaces.
Qed.

Lemma lstrip_head (s t : str) (c : char) :
  lstrip s = c :: t → is_space c = false.
Proof.
  induction s as [|a s IH]; simpl; [done|].
  destruct (is_space a) eqn:Ha; [exact IH|]. by intros [= <- _].
Qed.

(** A string that [strip] empties holds whitespace only. *)
Lemma strip_blank (s : str) :
  strip s = [] → Forall (fun c => is_space c = true) s.
Proof.
  unfold strip, rstrip. intros Hs.
  apply (f_equal (@rev char)) in Hs. rewrite rev_involutive in Hs. simpl in Hs.
  apply lstrip_all_spaces, Forall_rev in Hs. rewrite rev_involutive in Hs.
  apply lstrip_all_spaces.
  destruct (lstrip s) as [|c t] eqn:Hl; [done|].
  apply lstrip_head in Hl. apply Forall_cons_1 in Hs as [Hc _]. congruence.
Qed.

Lemma lstrip_noop (s : str) :
  (∀ c t, s = c :: t → is_space c = false) → lstrip s = s.
Proof.
  destruct s as [|c t]; [done|]. intros Hs. simpl.
  by rewrite (Hs c t eq_refl).
Qed.

Lemma lstrip_idemp (s : str) : lstrip (lstrip s) = lstrip s.
Proof.
  apply lstrip_noop. intros c t Hs. by eapply lstrip_head.
Qed.

(** [lstrip] removes a prefix of whitespace. *)
Lemma lstrip_decompose (s : str) :
  ∃ ws, s = ws ++ lstrip s ∧ Forall (fun c => is_space c = true) ws.
Proof.
  induction s as [|c s (ws & IH & Hws)]; [by exists []|].
  simpl. destruct (is_space c) eqn:Hc.
  - exists (c :: ws). split; [simpl; by f_equal | by constructor].
  - by exists [].
Qed.

(** The result of [strip] is stripped already. *)
Lemma strip_idemp (s : str) : strip (strip s) = strip s.
Proof.
  unfold strip at 1 3.
  assert (lstrip (strip s) = strip s) as ->; [|].
  - unfold strip, rstrip.
    destruct (lstrip_decompose (rev (lstrip s))) as (ws & Hrev & Hws).
    destruct (lstrip (rev (lstrip s))) as [|c u] eqn:Hu; [done|].
    apply lstrip_noop. intros c' t' Heq.
    assert (lstrip s = rev (c :: u) ++ rev ws) as Hl
      by (rewrite <- rev_app_distr, <- Hrev; by rewrite rev_involutive).
    rewrite Heq in Hl. simpl in Hl.
    by eapply lstrip_head.
  - unfold strip, rstrip. rewrite rev_involutive. by rewrite lstrip_idemp.
Qed.

Lemma strip_spaces (s : str) :
  Forall (fun c => is_space c = true) s → strip s = [].
Proof.
  intros Hs. unfold strip.
  replace (lstrip s) with ([] : str); [done|].
  symmetry. rewrite <- (app_nil_r s). apply lstrip_spaces_all; [done|constructor].
Qed.

Lemma lstrip_strip (s : str) : lstrip (strip s) = strip s.
Proof.
  apply lstrip_noop. intros c rest Hs.
  unfold strip, rstrip in Hs.
  destruct (lstrip_decompose (rev (lstrip s))) as (ws & Hrev & _).
  destruct (lstrip (rev (lstrip s))) as [|c' u] eqn:Hu; [done|].
  assert (lstrip s = rev (c' :: u) ++ rev ws) as Hl
    by (rewrite <- rev_app_distr, <- Hrev; by rewrite rev_involutive).
  rewrite Hs in Hl. simpl in Hl. by eapply lstrip_head.
Qed.

(** What [strip] leaves begins and ends with a character that is not
    whitespace. *)
Lemma strip_first (s : str) (c : char) (rest : str) :
  strip s = c :: rest → is_space c = false.
Proof.
  intros Hs. pose proof (lstrip_strip s) as Hl. rewrite Hs in Hl.
  by eapply lstrip_head.
Qed.

Lemma strip_last (s : str) (c : char) (rest : str) :
  strip s = rest ++ [c] → is_space c = false.
Proof.
  unfold strip, rstrip. intros Hs.
  apply (f_equal (@rev char)) in Hs.
  rewrite rev_involutive, rev_app_distr in Hs. simpl in Hs.
  by eapply lstrip_head.
Qed.

(** [strip] removes whitespace before and after, and nothing else. *)
Lemma strip_decompose (s : str) :
  ∃ leading trailing,
    s = leading ++ strip s ++ trailing
    ∧ Forall (fun c => is_space c = true) leading
    ∧ Forall (fun c => is_space c = true) trailing.
Proof.
  destruct (lstrip_decompose s) as (leading & Hs & Hleading).
  destruct (lstrip_decompose (rev (lstrip s))) as (ws & Hrev & Hws).
  exists leading, (rev ws). split_and!; [|done|by apply Forall_rev].
  unfold strip, rstrip. rewrite <- rev_app_distr, <- Hrev, rev_involutive.
  exact Hs.
Qed.

Lemma is_space_ascii (c : char) :
  is_space c = true → (c < 128)%N → (c <= 32)%N.
Proof.
  unfold is_space. intros Hs Hc.
  repeat (apply orb_prop in Hs as [Hs|Hs]);
    repeat (apply andb_prop in Hs as [? Hs]);
    repeat match goal with
           | H : (_ <=? _)%N = true |- _ => apply N.leb_le in H
           | H : (_ =? _)%N = true |- _ => apply N.eqb_eq in H
           end; lia.
Qed.

Section BlankNumbers.
Context `{Interpreter}.

Lemma to_ascii_space (c : char) : is_space c = true → (to_ascii c <= 32)%N.
Proof.
  intros Hs. unfold to_ascii.
  destruct (N.ltb_spec c 128); [by apply is_space_ascii|].
  by rewrite Hs.
Qed.

Lemma lskip_Forall (P : char → Prop) (s : str) : Forall P s → Forall P (lskip s).
Proof.
  induction 1 as [|c s Hc Hs IH]; simpl; [constructor|].
  destruct (is_cspace c); [exact IH | by constructor].
Qed.

(** [int] refuses a blank string. *)
Lemma int_blank (s : str) : strip s = [] → int s = None.
Proof.
  intros Hs%strip_blank. unfold int.
  assert (Forall (fun c => (c <= 32)%N) (skip_spaces (map to_ascii s))) as Hb.
  { unfold skip_spaces. apply Forall_rev, lskip_Forall, Forall_rev, lskip_Forall.
    apply Forall_map. eapply Forall_impl; [exact Hs|].
    intros c Hc. by apply to_ascii_space. }
  destruct (skip_spaces (map to_ascii s)) as [|c b]; [done|].
  apply Forall_cons_1 in Hb as [Hc _].
  unfold take_sign.
  destruct (N.eqb_spec c 45); [lia|]. destruct (N.eqb_spec c 43); [lia|].
  simpl. unfold digit_val.
  destruct (N.leb_spec 48 c); [lia|]. simpl.
  destruct (N.eqb_spec c 95); [lia|]. done.
Qed.

End BlankNumbers.

(** ** The validator *)

Section Validator.
Context `{Interpreter}.

Lemma extend_if_truthy {A B} (f : A → B) (acc : list B) (l : list A) :
  (if truthy l then acc ++ map f l else acc) = acc ++ map f l.
Proof. destruct l; simpl; [by rewrite app_nil_r | done]. Qed.

(** [validate_record] on a line of three fields. *)
Lemma validate_record_three record delimiter seen_ids id_str name value_str :
  split (strip record) delimiter = Ret [id_str; name; value_str] →
  validate_record record delimiter seen_ids =
    if truthy (field_errors id_str name value_str seen_ids)
    then Ret (false, field_errors id_str name value_str seen_ids, seen_ids)
    else Ret (register_id id_str seen_ids).
Proof.
  intros Hparts. unfold validate_record. rewrite Hparts.
  cbn [mbind result_bind length Nat.eqb negb].
  rewrite !extend_if_truthy. cbn [app].
  by rewrite <- app_assoc.
Qed.

(** [validate_record] on a line of another number of fields. *)
Lemma validate_record_other record delimiter seen_ids parts :
  split (strip record) delimiter = Ret parts →
  length parts ≠ 3%nat →
  validate_record record delimiter seen_ids =
    Ret (false, [msg_field_count (length parts)], seen_ids).
Proof.
  intros Hparts Hlen. unfold validate_record. rewrite Hparts.
  cbn [mbind result_bind].
  destruct (length parts =? 3)%nat eqn:E; [|done].
  by apply Nat.eqb_eq in E.
Qed.

(** [split] raises on the empty separator only. *)
Lemma split_returns (s sep : str) :
  sep ≠ [] → ∃ parts, split s sep = Ret parts ∧ parts ≠ [].
Proof.
  intros Hsep. destruct sep as [|c sep]; [done|].
  eexists; split; [reflexivity|].
  generalize 0%nat ([] : str).
  induction s as [|a s IH]; intros skip cur; [done|].
  simpl. destruct skip; [|apply IH].
  destruct (_ && _); [done | apply IH].
Qed.

Lemma split_raises (s : str) :
  split s [] = Raise (ValueError (u8 "empty separator")).
Proof. done. Qed.

(** A line is accepted exactly when it has three fields, its identifier
    is an integer not seen before, its name is not blank and its value
    is a float that does not compare below zero. *)
Lemma validate_record_accepts record delimiter seen_ids errors seen' :
  validate_record record delimiter seen_ids = Ret (true, errors, seen') →
  ∃ id_str name value_str id_num value,
    split (strip record) delimiter = Ret [id_str; name; value_str]
    ∧ int id_str = Some id_num ∧ (id_num ∉ seen_ids)
    ∧ strip name ≠ []
    ∧ float value_str = Some value ∧ flt value fzero = false
    ∧ errors = [] ∧ seen' = {[id_num]} ∪ seen_ids.
Proof.
  intros Hv.
  destruct (split (strip record) delimiter) as [parts|e] eqn:Hparts;
    [|by unfold validate_record in Hv; rewrite Hparts in Hv].
  destruct (decide (length parts = 3%nat)) as [Hlen|Hlen];
    [|by rewrite (validate_record_other _ _ _ _ Hparts Hlen) in Hv].
  destruct parts as [|id_str [|name [|value_str [|? ?]]]]; try done.
  rewrite (validate_record_three _ _ _ _ _ _ Hparts) in Hv.
  exists id_str, name, value_str.
  unfold field_errors, check_id, check_name, check_value, register_id in Hv.
  destruct (strip id_str) eqn:Hid; [done|].
  destruct (int id_str) as [id_num|]; [|done].
  destruct (strip name) eqn:Hname; [by case_bool_decide|].
  destruct (strip value_str) eqn:Hvalue; [by case_bool_decide|].
  destruct (float value_str) as [value|]; [|by case_bool_decide].
  case_bool_decide; [done|].
  destruct (flt value fzero) eqn:Hneg; [done|].
  simpl in Hv. exists id_num, value. naive_solver.
Qed.

(** A rejection leaves [seen_ids] as it was and names an error. *)
Lemma validate_record_rejects record delimiter seen_ids errors seen' :
  validate_record record delimiter seen_ids = Ret (false, errors, seen') →
  seen' = seen_ids ∧ errors ≠ [].
Proof.
  intros Hv.
  destruct (split (strip record) delimiter) as [parts|e] eqn:Hparts;
    [|by unfold validate_record in Hv; rewrite Hparts in Hv].
  destruct (decide (length parts = 3%nat)) as [Hlen|Hlen];
    [|rewrite (validate_record_other _ _ _ _ Hparts Hlen) in Hv;
      by simplify_eq].
  destruct parts as [|id_str [|name [|value_str [|? ?]]]]; try done.
  rewrite (validate_record_three _ _ _ _ _ _ Hparts) in Hv.
  destruct (field_errors id_str name value_str seen_ids) eqn:Herrs.
  - simpl in Hv. unfold register_id in Hv.
    destruct (int id_str); by simplify_eq.
  - simpl in Hv. by simplify_eq.
Qed.

Lemma label_duplicate_id :
  label_id msg_duplicate_id = u8 "ID: Дублирующийся идентификатор".
Proof. vm_compute; reflexivity. Qed.

(** A line whose id was seen before is rejected for it. *)
Lemma validate_record_duplicate record delimiter seen_ids
    id_str name value_str id_num :
  split (strip record) delimiter = Ret [id_str; name; value_str] →
  int id_str = Some id_num →
  id_num ∈ seen_ids →
  ∃ errors,
    validate_record record delimiter seen_ids = Ret (false, errors, seen_ids)
    ∧ label_id msg_duplicate_id ∈ errors.
Proof.
  intros Hparts Hid Hseen.
  rewrite (validate_record_three _ _ _ _ _ _ Hparts).
  unfold field_errors, check_id.
  destruct (strip id_str) eqn:Hblank;
    [by rewrite (int_blank _ Hblank) in Hid|].
  rewrite Hid. simpl. rewrite bool_decide_eq_true_2 by done. simpl.
  eexists; split; [done|]. by left.
Qed.

(** With a separator that is not empty, [validate_record] returns. *)
Lemma validate_record_returns record delimiter seen_ids :
  delimiter ≠ [] →
  ∃ is_valid errors seen',
    validate_record record delimiter seen_ids = Ret (is_valid, errors, seen').
Proof.
  intros Hd.
  destruct (split_returns (strip record) delimiter Hd) as (parts & Hparts & _).
  destruct (decide (length parts = 3%nat)) as [Hlen|Hlen].
  - destruct parts as [|id_str [|name [|value_str [|? ?]]]]; try done.
    rewrite (validate_record_three _ _ _ _ _ _ Hparts).
    destruct (truthy _); [by eauto|].
    destruct (register_id id_str seen_ids) as [[b e] s]. by eauto.
  - rewrite (validate_record_other _ _ _ _ Hparts Hlen). by eauto.
Qed.

End Validator.

(** ** The scan *)

Section Scan.
Context `{Interpreter}.

Lemma initial_consistent : consistent initial_state.
Proof. split_and!; [done | constructor | done]. Qed.

(** An accepted line always passes the second parse: the branch of
    lines 86-88 is never taken. *)
Lemma process_line_accepted delimiter st line_num line errors seen' :
  validate_record line delimiter (seen_ids st) = Ret (true, errors, seen') →
  ∃ r id_str name value_str,
    split (strip line) delimiter = Ret [id_str; name; value_str]
    ∧ int id_str = Some (rec_id r) ∧ (rec_id r ∉ seen_ids st)
    ∧ rec_name r = name ∧ strip name ≠ []
    ∧ float value_str = Some (rec_value r) ∧ flt (rec_value r) fzero = false
    ∧ rec_original r = strip line
    ∧ process_line delimiter st line_num line =
        Ret {| total_records := S (total_records st);
               valid_records := valid_records st ++ [r];
               invalid_records := invalid_records st;
               error_counts := error_counts st;
               seen_ids := {[rec_id r]} ∪ seen_ids st |}.
Proof.
  intros Hv.
  destruct (validate_record_accepts _ _ _ _ _ Hv)
    as (id_str & name & value_str & id_num & value
        & Hparts & Hid & Hnew & Hname & Hval & Hneg & -> & ->).
  exists {| rec_id := id_num; rec_name := name; rec_value := value;
            rec_original := strip line |}, id_str, name, value_str.
  repeat split; try done.
  unfold process_line. rewrite Hv. cbn [mbind result_bind].
  rewrite Hparts. cbn [mbind result_bind].
  unfold parse_record. cbn [lookup list_lookup mbind option_bind].
  by rewrite Hid, Hval.
Qed.

Lemma process_line_rejected delimiter st line_num line errors seen' :
  validate_record line delimiter (seen_ids st) = Ret (false, errors, seen') →
  process_line delimiter st line_num line =
    Ret {| total_records := S (total_records st);
           valid_records := valid_records st;
           invalid_records :=
             invalid_records st ++ [(line_num, strip line, errors)];
           error_counts :=
             fold_left (fun counts error => count_error error counts)
                       errors (error_counts st);
           seen_ids := seen_ids st |}.
Proof.
  intros Hv. destruct (validate_record_rejects _ _ _ _ _ Hv) as [-> _].
  unfold process_line. by rewrite Hv.
Qed.

(** Every line has one of the two outcomes. *)
Lemma process_line_outcome delimiter st line_num line st' :
  process_line delimiter st line_num line = Ret st' →
  total_records st' = S (total_records st)
  ∧ ((∃ r, (rec_id r ∉ seen_ids st) ∧ accepted_by st st' r)
     ∨ (∃ errors, rejected_by st st' (line_num, strip line, errors))).
Proof.
  intros Hp.
  destruct (validate_record line delimiter (seen_ids st))
    as [[[[] errors] seen']|e] eqn:Hv.
  - destruct (process_line_accepted _ _ line_num _ _ _ Hv)
      as (r & ? & ? & ? & _ & _ & Hnew & _ & _ & _ & _ & _ & Hp').
    rewrite Hp' in Hp. simplify_eq. split; [done|]. left. by exists r.
  - rewrite (process_line_rejected _ _ line_num _ _ _ Hv) in Hp.
    simplify_eq. split; [done|]. right. by exists errors.
  - unfold process_line in Hp. by rewrite Hv in Hp.
Qed.

Lemma process_line_consistent delimiter st line_num line st' :
  consistent st →
  process_line delimiter st line_num line = Ret st' →
  consistent st'.
Proof.
  intros (Hseen & Hnodup & Htotal) Hp.
  destruct (process_line_outcome _ _ _ _ _ Hp)
    as [Ht [(r & Hnew & Hv & Hi & Hs)|(errors & Hv & Hi & Hs)]];
    unfold consistent, accepted_ids in *; rewrite Ht, Hv, Hi, Hs.
  - rewrite fmap_app, list_to_set_app_L, !length_app. simpl.
    repeat split.
    + rewrite Hseen, union_empty_r_L. apply (comm_L (∪)).
    + apply NoDup_app. repeat split; [done| |apply NoDup_singleton].
      intros x Hx ->%list_elem_of_singleton.
      apply Hnew. rewrite Hseen. by apply elem_of_list_to_set.
    + lia.
  - rewrite length_app. simpl. repeat split; [done..|lia].
Qed.

Lemma process_line_returns delimiter st line_num line :
  delimiter ≠ [] → ∃ st', process_line delimiter st line_num line = Ret st'.
Proof.
  intros Hd.
  destruct (validate_record_returns line delimiter (seen_ids st) Hd)
    as ([] & errors & seen' & Hv).
  - destruct (process_line_accepted _ _ line_num _ _ _ Hv)
      as (r & ? & ? & ? & _ & _ & _ & _ & _ & _ & _ & _ & Hp).
    by eauto.
  - rewrite (process_line_rejected _ _ line_num _ _ _ Hv). by eauto.
Qed.

Lemma scan_app delimiter st line_num lines rest :
  scan delimiter st line_num (lines ++ rest) =
    st' ← scan delimiter st line_num lines;
    scan delimiter st' (line_num + length lines) rest.
Proof.
  revert st line_num.
  induction lines as [|line lines IH]; intros st line_num; simpl.
  - by rewrite Nat.add_0_r.
  - destruct (process_line delimiter st line_num line) as [st1|e]; [|done].
    cbn [mbind result_bind]. rewrite IH. by rewrite Nat.add_succ_comm.
Qed.

Lemma scan_consistent delimiter st line_num lines st' :
  consistent st →
  scan delimiter st line_num lines = Ret st' →
  consistent st'.
Proof.
  revert st line_num.
  induction lines as [|line lines IH]; intros st line_num Hc Hs; simpl in Hs.
  - by simplify_eq.
  - destruct (process_line delimiter st line_num line) as [st1|e] eqn:Hp;
      [|done].
    eapply IH; [|exact Hs]. by eapply process_line_consistent.
Qed.

(** The valid records only grow. *)
Lemma scan_keeps_valid delimiter st line_num lines st' :
  scan delimiter st line_num lines = Ret st' →
  valid_records st `prefix_of` valid_records st'.
Proof.
  revert st line_num.
  induction lines as [|line lines IH]; intros st line_num Hs; simpl in Hs.
  - by simplify_eq.
  - destruct (process_line delimiter st line_num line) as [st1|e] eqn:Hp;
      [|done].
    etrans; [|by eapply IH].
    destruct (process_line_outcome _ _ _ _ _ Hp)
      as [_ [(r & _ & -> & _)|(errors & -> & _)]]; [|done].
    by apply prefix_app_r.
Qed.

Lemma scan_returns delimiter st line_num lines :
  delimiter ≠ [] → ∃ st', scan delimiter st line_num lines = Ret st'.
Proof.
  intros Hd. revert st line_num.
  induction lines as [|line lines IH]; intros st line_num; simpl; [by eauto|].
  destruct (process_line_returns delimiter st line_num line Hd) as [st1 ->].
  apply IH.
Qed.

Lemma scan_total_records delimiter lines st :
  scan delimiter initial_state 1 lines = Ret st →
  total_records st = length lines.
Proof.
  enough (∀ st0 n st', scan delimiter st0 n lines = Ret st' →
            total_records st' = (total_records st0 + length lines)%nat)
    as Hgen by (intros Hs; by rewrite (Hgen _ _ _ Hs)).
  induction lines as [|line lines IH]; intros st0 n st' Hs; simpl in Hs.
  - simplify_eq. simpl. lia.
  - destruct (process_line delimiter st0 n line) as [st1|e] eqn:Hp; [|done].
    rewrite (IH _ _ _ Hs).
    destruct (process_line_outcome _ _ _ _ _ Hp) as [-> _]. simpl. lia.
Qed.

(** A float that does not compare below zero is at least zero, or is
    not a number. *)
Lemma not_below_zero (value : float64) :
  flt value fzero = false → fle fzero value = true ∨ value = S754_nan.
Proof. destruct value as [| [] | | [] m e]; simpl; by eauto. Qed.

Lemma scan_checked delimiter st line_num lines st' :
  Forall checked (valid_records st) →
  scan delimiter st line_num lines = Ret st' →
  Forall checked (valid_records st').
Proof.
  revert st line_num.
  induction lines as [|line lines IH]; intros st line_num Hc Hs; simpl in Hs.
  - by simplify_eq.
  - destruct (process_line delimiter st line_num line) as [st1|e] eqn:Hp;
      [|done].
    eapply IH; [|exact Hs].
    destruct (validate_record line delimiter (seen_ids st))
      as [[[[] errors] seen']|e] eqn:Hv.
    + destruct (process_line_accepted _ _ line_num _ _ _ Hv)
        as (r & ? & name & ? & _ & _ & _ & Hn & Hname & _ & Hneg & _ & Hp').
      rewrite Hp' in Hp. simplify_eq. cbn [valid_records].
      apply Forall_app. split; [done|]. apply Forall_singleton.
      split; [done | by apply not_below_zero].
    + rewrite (process_line_rejected _ _ line_num _ _ _ Hv) in Hp.
      by simplify_eq.
    + unfold process_line in Hp. by rewrite Hv in Hp.
Qed.

(** The valid records are the lines that were not rejected. *)
Lemma scan_counts delimiter lines st :
  scan delimiter initial_state 1 lines = Ret st →
  length (valid_records st)
  = (length lines - length (invalid_records st))%nat
  ∧ Forall checked (valid_records st).
Proof.
  intros Hs. split.
  - destruct (scan_consistent _ _ _ _ _ initial_consistent Hs) as (_ & _ & Ht).
    rewrite (scan_total_records _ _ _ Hs) in Ht. lia.
  - eapply scan_checked; [|exact Hs]. constructor.
Qed.

End Scan.

(** ** The specification's properties *)

Section Rules.
Context `{Interpreter}.

Lemma truthy_strip_blank (s : str) :
  negb (truthy (strip s)) = bool_decide (strip s = []).
Proof. destruct (strip s); by case_bool_decide. Qed.

Lemma field_errors_spec id_str name value_str seen_ids :
  field_errors id_str name value_str seen_ids
  = spec_errors id_str name value_str seen_ids.
Proof.
  unfold field_errors, spec_errors, check_id, check_name, check_value,
    spec_id_errors, spec_name_errors, spec_value_errors.
  rewrite !truthy_strip_blank.
  f_equal; [|f_equal].
  - case_bool_decide; [by vm_compute|].
    destruct (int id_str); [case_bool_decide|]; by vm_compute.
  - case_bool_decide; by vm_compute.
  - case_bool_decide; [by vm_compute|].
    destruct (float value_str) as [v|]; [destruct (flt v fzero)|];
      by vm_compute.
Qed.

(** The format error and the duplicate error of the id never meet. *)
Lemma spec_errors_exclusive id_str name value_str seen_ids :
  ¬ (u8 "ID: Некорректный формат идентификатора"
       ∈ spec_errors id_str name value_str seen_ids
     ∧ u8 "ID: Дублирующийся идентификатор"
       ∈ spec_errors id_str name value_str seen_ids).
Proof.
  unfold spec_errors, spec_id_errors, spec_name_errors, spec_value_errors.
  repeat first [case_bool_decide | case_match];
    refute_by_computation.
Qed.

End Rules.

Section Claims.
Context `{Interpreter}.

(** C5. A line that splits into a number of fields other than three is
    rejected at once: [validate_record] returns [False] with exactly one
    error, the one that gives the expected and the actual number of
    fields; no field is checked and [seen_ids] is left as it was. *)
Theorem validate_record_field_count record delimiter seen_ids parts :
  split (strip record) delimiter = Ret parts →
  length parts ≠ 3%nat →
  validate_record record delimiter seen_ids =
    Ret (false,
         [u8 "Ожидается 3 поля, получено " ++ str_of_nat (length parts)],
         seen_ids).
Proof.
  intros Hparts Hlen.
  by rewrite (validate_record_other _ _ _ _ Hparts Hlen).
Qed.

(** C4. [validate_record] changes [seen_ids] only when it returns
    success. Every rejection (the field count, any field error) leaves
    the set as it was; so does the defensive branch taken if the second
    parse of the id fails; and a success adds the id parsed, nothing
    else. *)
Theorem validate_record_seen_ids :
  (∀ record delimiter seen_ids errors seen',
     validate_record record delimiter seen_ids = Ret (false, errors, seen') →
     seen' = seen_ids)
  ∧ (∀ id_str seen_ids,
       int id_str = None →
       register_id id_str seen_ids = (false, [msg_internal_id], seen_ids))
  ∧ (∀ record delimiter seen_ids errors seen',
       validate_record record delimiter seen_ids = Ret (true, errors, seen') →
       ∃ id_str name value_str id_num,
         split (strip record) delimiter = Ret [id_str; name; value_str]
         ∧ int id_str = Some id_num
         ∧ seen' = {[id_num]} ∪ seen_ids).
Proof.
  split_and!.
  - intros record delimiter seen errors seen' Hv.
    by destruct (validate_record_rejects _ _ _ _ _ Hv).
  - intros id_str seen Hid. unfold register_id. by rewrite Hid.
  - intros record delimiter seen errors seen' Hv.
    destruct (validate_record_accepts _ _ _ _ _ Hv)
      as (id_str & name & value_str & id_num & _ & ? & ? & _ & _ & _ & _ & _ & ?).
    by exists id_str, name, value_str, id_num.
Qed.

(** C2. On a line of exactly three fields [validate_record] checks every
    field and returns all the errors triggered, each under the label of
    its field, in the order id, name, value; the line is valid exactly
    when there is none. The format error and the duplicate error of the id
    never come together. On the scenario of four lines, line 1 is valid,
    line 2 is rejected for a duplicate id and a negative value, line 3
    for an empty id, line 4 for the id's format and the value's: one
    valid record, three invalid ones, one unique id. *)
Theorem validate_record_all_errors :
  (∀ record delimiter seen_ids id_str name value_str,
     split (strip record) delimiter = Ret [id_str; name; value_str] →
     ∃ seen',
       validate_record record delimiter seen_ids =
         Ret (bool_decide (spec_errors id_str name value_str seen_ids = []),
              spec_errors id_str name value_str seen_ids, seen')
       ∧ ¬ (u8 "ID: Некорректный формат идентификатора"
              ∈ spec_errors id_str name value_str seen_ids
            ∧ u8 "ID: Дублирующийся идентификатор"
              ∈ spec_errors id_str name value_str seen_ids))
  ∧ ∃ st r,
      scan (u8 ",") initial_state 1 (file_lines scenario_text) = Ret st
      ∧ valid_records st = [r]
      ∧ rec_original r = u8 "1,Widget,10.5"
      ∧ invalid_records st =
          [ (2%nat, u8 "1,Gadget,-3",
             [u8 "ID: Дублирующийся идентификатор";
              u8 "Value: Отрицательное значение"]);
            (3%nat, u8 ",NoId,5", [u8 "ID: Пустой идентификатор"]);
            (4%nat, u8 "abc,Name,notanumber",
             [u8 "ID: Некорректный формат идентификатора";
              u8 "Value: Некорректное числовое значение"]) ]
      ∧ length (valid_records st) = 1%nat
      ∧ length (invalid_records st) = 3%nat
      ∧ unique_ids_count (aggregate (valid_records st)) = 1%nat.
Proof.
  split.
  - intros record delimiter seen id_str name value_str Hparts.
    rewrite (validate_record_three _ _ _ _ _ _ Hparts), field_errors_spec.
    pose proof (spec_errors_exclusive id_str name value_str seen) as Hex.
    destruct (spec_errors id_str name value_str seen) as [|e errs] eqn:He.
    + rewrite <- field_errors_spec in He. simpl.
      unfold register_id.
      unfold field_errors, check_id in He.
      destruct (strip id_str); [done|].
      destruct (int id_str); [by eauto|done].
    + simpl. by eauto.
  - exists (match scan (u8 ",") initial_state 1 (file_lines scenario_text) with
            | Ret st => st
            | Raise _ => initial_state
            end).
    exists {| rec_id := 1; rec_name := u8 "Widget";
              rec_value := float_of_decimal false 105 (-1);
              rec_original := u8 "1,Widget,10.5" |}.
    split_and!; vm_compute; reflexivity.
Qed.

(** C1, at the input where the program departs from it: the line
    [1,x,nan] is accepted, and the value recorded for it is not a number,
    so it is not [>= 0]. *)
Theorem validate_record_accepts_nan :
  validate_record (u8 "1,x,nan") (u8 ",") ∅ = Ret (true, [], {[1]})
  ∧ float (u8 "nan") = Some S754_nan
  ∧ fle fzero S754_nan = false
  ∧ ∃ st,
      scan (u8 ",") initial_state 1 [u8 "1,x,nan"] = Ret st
      ∧ valid_records st =
          [{| rec_id := 1; rec_name := u8 "x"; rec_value := S754_nan;
              rec_original := u8 "1,x,nan" |}]
      ∧ invalid_records st = [].
Proof.
  split_and!; [vm_compute; reflexivity..|].
  exists (match scan (u8 ",") initial_state 1 [u8 "1,x,nan"] with
          | Ret st => st
          | Raise _ => initial_state
          end).
  split_and!; vm_compute; reflexivity.
Qed.

(** C3. At every point of a scan: the line read next has exactly one
    outcome, it joins the valid records or the invalid ones; [seen_ids]
    holds exactly the ids of the records accepted so far; a line whose id
    equals one of them is rejected for the duplicate; and the records
    accepted stay accepted until the end. With a separator that is not
    empty the scan reaches every line. *)
Theorem scan_invariant delimiter :
  (∀ prefix line rest final,
     scan delimiter initial_state 1 (prefix ++ line :: rest) = Ret final →
     ∃ st st',
       scan delimiter initial_state 1 prefix = Ret st
       ∧ process_line delimiter st (S (length prefix)) line = Ret st'
       ∧ scan delimiter st' (S (S (length prefix))) rest = Ret final
       ∧ seen_ids st = list_to_set (accepted_ids st)
       ∧ seen_ids st' = list_to_set (accepted_ids st')
       ∧ ((∃ r, accepted_by st st' r)
          ∨ (∃ errors,
               rejected_by st st' (S (length prefix), strip line, errors)))
       ∧ ¬ ((∃ r, accepted_by st st' r)
            ∧ (∃ rej, rejected_by st st' rej))
       ∧ (∀ id_str name value_str id_num,
            split (strip line) delimiter = Ret [id_str; name; value_str] →
            int id_str = Some id_num →
            id_num ∈ accepted_ids st →
            ∃ errors,
              u8 "ID: Дублирующийся идентификатор" ∈ errors
              ∧ rejected_by st st' (S (length prefix), strip line, errors))
       ∧ valid_records st `prefix_of` valid_records st'
       ∧ valid_records st' `prefix_of` valid_records final)
  ∧ (delimiter ≠ [] →
     ∀ lines, ∃ final, scan delimiter initial_state 1 lines = Ret final).
Proof.
  split; [|intros Hd lines; by apply scan_returns].
  intros prefix line rest final Hscan.
  rewrite scan_app in Hscan.
  destruct (scan delimiter initial_state 1 prefix) as [st|] eqn:Hst; [|done].
  cbn [mbind result_bind] in Hscan. simpl in Hscan.
  destruct (process_line delimiter st (S (length prefix)) line)
    as [st'|] eqn:Hst'; [|done].
  cbn [mbind result_bind] in Hscan.
  pose proof (scan_consistent _ _ _ _ _ initial_consistent Hst)
    as Hc.
  pose proof (process_line_consistent _ _ _ _ _ Hc Hst') as (Hseen' & _ & _).
  destruct Hc as (Hseen & _ & _).
  exists st, st'. split_and!; try done.
  - destruct (process_line_outcome _ _ _ _ _ Hst')
      as [_ [(r & _ & Ha)|(errors & Hr)]]; [left|right]; by eauto.
  - intros [(r & Hv & _) (rej & Hv' & _)].
    rewrite Hv' in Hv. apply (f_equal length) in Hv.
    rewrite length_app in Hv. simpl in Hv. lia.
  - intros id_str name value_str id_num Hparts Hid Hin.
    assert (id_num ∈ seen_ids st) as Hdup
      by (rewrite Hseen; by apply elem_of_list_to_set).
    destruct (validate_record_duplicate _ _ _ _ _ _ _ Hparts Hid Hdup)
      as (errors & Hv & Herr).
    rewrite (process_line_rejected _ _ _ _ _ _ Hv) in Hst'.
    exists errors. rewrite <- label_duplicate_id. split; [exact Herr|].
    by simplify_eq.
  - destruct (process_line_outcome _ _ _ _ _ Hst')
      as [_ [(r & _ & -> & _)|(errors & -> & _)]];
      [by apply prefix_app_r | done].
  - by eapply scan_keeps_valid.
Qed.

(** C10. The records accepted in one run have pairwise distinct ids, so
    the number of unique ids the report gives is the number of valid
    records. With a separator that is not empty the scan returns. *)
Theorem accepted_ids_distinct delimiter lines :
  (∀ st,
     scan delimiter initial_state 1 lines = Ret st →
     NoDup (accepted_ids st)
     ∧ (valid_records st ≠ [] →
        unique_ids_count (aggregate (valid_records st))
        = length (valid_records st)))
  ∧ (delimiter ≠ [] → ∃ st, scan delimiter initial_state 1 lines = Ret st).
Proof.
  split; [|intros Hd; by apply scan_returns].
  intros st Hscan.
  destruct (scan_consistent _ _ _ _ _ initial_consistent Hscan)
    as (_ & Hnodup & _).
  split; [done|]. intros Hne.
  unfold aggregate. destruct (valid_records st) as [|r rest] eqn:Hv; [done|].
  cbn [unique_ids_count].
  unfold accepted_ids in Hnodup. rewrite Hv in Hnodup.
  rewrite size_list_to_set by done. by rewrite length_map.
Qed.

(** C7, as the program has it: the line is split after whitespace is
    trimmed at both of its ends and nowhere else. The line is some
    whitespace, a core, and some whitespace; the core neither begins nor
    ends with whitespace; and what [validate_record] returns is decided
    by the fields that the delimiter cuts the core into. So whitespace
    before the first field is removed as well as whitespace after the
    last, and adding whitespace at either end of a line changes
    nothing. *)
Theorem validate_record_trims_both_ends record delimiter seen_ids :
  ∃ leading core trailing,
    record = leading ++ core ++ trailing
    ∧ Forall (fun c => is_space c = true) leading
    ∧ Forall (fun c => is_space c = true) trailing
    ∧ (∀ c rest, core = c :: rest → is_space c = false)
    ∧ (∀ c rest, core = rest ++ [c] → is_space c = false)
    ∧ strip record = core
    ∧ (∀ e,
         split core delimiter = Raise e →
         validate_record record delimiter seen_ids = Raise e)
    ∧ (∀ parts,
         split core delimiter = Ret parts →
         length parts ≠ 3%nat →
         validate_record record delimiter seen_ids
         = Ret (false,
                [u8 "Ожидается 3 поля, получено "
                   ++ str_of_nat (length parts)],
                seen_ids))
    ∧ (∀ id_str name value_str,
         split core delimiter = Ret [id_str; name; value_str] →
         validate_record record delimiter seen_ids
         = if truthy (field_errors id_str name value_str seen_ids)
           then Ret (false, field_errors id_str name value_str seen_ids,
                     seen_ids)
           else Ret (register_id id_str seen_ids))
    ∧ (∀ before after,
         Forall (fun c => is_space c = true) before →
         Forall (fun c => is_space c = true) after →
         strip (before ++ record ++ after) = core
         ∧ validate_record (before ++ record ++ after) delimiter seen_ids
           = validate_record record delimiter seen_ids).
Proof.
  destruct (strip_decompose record) as (leading & trailing & Hrec & Hl & Ht).
  exists leading, (strip record), trailing.
  split_and!.
  - exact Hrec.
  - exact Hl.
  - exact Ht.
  - intros c rest. apply strip_first.
  - intros c rest. apply strip_last.
  - reflexivity.
  - intros e He. unfold validate_record. by rewrite He.
  - intros parts Hparts Hlen.
    by rewrite (validate_record_other _ _ _ _ Hparts Hlen).
  - intros id_str name value_str Hparts.
    by apply validate_record_three.
  - intros before after Hb Ha.
    assert (strip (before ++ record ++ after) = strip record) as Hs
      by (by rewrite strip_leading, strip_trailing).
    split; [done|]. unfold validate_record. by rewrite Hs.
Qed.

(** C6, as the program has it. Without an input file argument the
    program prints the usage message, which describes the format of the
    fields, and exits with status 1. When the input file cannot be opened
    it exits with status 1 after one line that names the failure, not the
    usage: one message for a file that is not found, another for any
    other error. In both cases no file is written. *)
Theorem main_fatal_errors :
  (∀ argv fs,
     (length argv < 2)%nat →
     main argv fs = {| printed := usage; fs_after := fs; exit_code := Some 1 |}
     ∧ nl ++ u8 "Формат данных (3 поля): id,name,value" ∈ usage)
  ∧ (∀ prog input_file args fs,
       let o := main (prog :: input_file :: args) fs in
       (fs !! input_file = None →
        o = {| printed := [u8 "Ошибка: файл '" ++ input_file ++ u8 "' не найден."];
               fs_after := fs; exit_code := Some 1 |})
       ∧ (∀ msg,
            fs !! input_file = Some (Blocked msg) →
            o = {| printed := [u8 "Ошибка при чтении файла: " ++ msg];
                   fs_after := fs; exit_code := Some 1 |})
       ∧ (∀ msg,
            u8 "Ошибка: файл '" ++ input_file ++ u8 "' не найден."
            ≠ u8 "Ошибка при чтении файла: " ++ msg)).
Proof.
  split.
  - intros argv fs Hlen. split; [|prove_by_computation].
    unfold main. by rewrite (proj2 (Nat.ltb_lt _ _) Hlen).
  - intros prog input_file args fs o. subst o. split_and!.
    + intros Hnone. unfold main, process_file, read_and_scan, open_read.
      cbn [length Nat.ltb Nat.leb nth]. by rewrite Hnone.
    + intros msg Hblocked. unfold main, process_file, read_and_scan, open_read.
      cbn [length Nat.ltb Nat.leb nth]. by rewrite Hblocked.
    + intros msg Heq. vm_compute in Heq. discriminate Heq.
Qed.

(** C8, as the program has it. When a run accepts no record, every
    aggregate is zero and is printed as zero, the section of the valid
    records holds its fallback line, and the report is written. The
    section of the invalid records holds its fallback line when no line
    was rejected either, and the rejected records otherwise; for an
    empty input file both fallback lines appear and the three counts are
    zero as well. *)
Theorem report_without_valid_records
    fs input_path delimiter output_path st :
  read_and_scan fs input_path delimiter = Ret st →
  valid_records st = [] →
  let o := process_file fs input_path delimiter output_path in
  aggregate (valid_records st)
  = {| avg_value := fzero; max_value := fzero; min_value := fzero;
       min_id := 0; max_id := 0; unique_ids_count := 0 |}
  ∧ summary_lines st
    = [ replicate 70 61%N;
        u8 "ОТЧЁТ ОБ ОБРАБОТКЕ ДАННЫХ";
        replicate 70 61%N;
        u8 "Общее количество записей: " ++ str_of_nat (total_records st);
        u8 "Корректных записей: 0";
        u8 "Некорректных записей: "
          ++ str_of_nat (length (invalid_records st));
        u8 "Уникальных идентификаторов: 0";
        u8 "Общее количество ошибок: "
          ++ str_of_nat (foldr Nat.add 0%nat (map snd (error_counts st)));
        nl ++ u8 "Агрегированная статистика (по корректным записям):";
        u8 "  Диапазон идентификаторов: 0 - 0";
        u8 "  Среднее значение value: 0.00";
        u8 "  Максимальное значение value: 0.00";
        u8 "  Минимальное значение value: 0.00" ]
  ∧ valid_lines st
    = [ nl ++ u8 "Корректные записи:"; u8 "  Корректных записей не найдено." ]
  ∧ (invalid_records st = [] →
     invalid_lines st
     = [ nl ++ u8 "Детализация некорректных записей:";
         u8 "  Некорректных записей не найдено." ])
  ∧ (invalid_records st ≠ [] →
     invalid_lines st
     = (nl ++ u8 "Детализация некорректных записей:")
         :: concat (map rejected_lines (invalid_records st)))
  ∧ exit_code o = None
  ∧ ((∀ msg, fs !! output_path ≠ Some (Blocked msg)) →
     fs_after o !! output_path = Some (File (report_text st)))
  ∧ (fs !! input_path = Some (File []) →
     total_records st = 0%nat
     ∧ invalid_records st = []
     ∧ report_lines st
       = [ replicate 70 61%N;
           u8 "ОТЧЁТ ОБ ОБРАБОТКЕ ДАННЫХ";
           replicate 70 61%N;
           u8 "Общее количество записей: 0";
           u8 "Корректных записей: 0";
           u8 "Некорректных записей: 0";
           u8 "Уникальных идентификаторов: 0";
           u8 "Общее количество ошибок: 0";
           nl ++ u8 "Агрегированная статистика (по корректным записям):";
           u8 "  Диапазон идентификаторов: 0 - 0";
           u8 "  Среднее значение value: 0.00";
           u8 "  Максимальное значение value: 0.00";
           u8 "  Минимальное значение value: 0.00";
           nl ++ u8 "Полный список ошибок (по типам):";
           nl ++ u8 "Детализация некорректных записей:";
           u8 "  Некорректных записей не найдено.";
           nl ++ u8 "Корректные записи:";
           u8 "  Корректных записей не найдено." ]).
Proof.
  intros Hscan Hvalid o. subst o. split_and!.
  - by rewrite Hvalid.
  - unfold summary_lines. rewrite Hvalid. cbn [aggregate length].
    cbn [unique_ids_count min_id max_id avg_value max_value min_value].
    repeat (f_equal; try (vm_compute; reflexivity)).
  - unfold valid_lines. rewrite Hvalid. by vm_compute.
  - intros Hinvalid. unfold invalid_lines. rewrite Hinvalid. by vm_compute.
  - intros Hinvalid. unfold invalid_lines, invalid_heading.
    by destruct (invalid_records st).
  - unfold process_file. rewrite Hscan. by destruct (open_write _ _ _).
  - intros Hw. unfold process_file, open_write. rewrite Hscan.
    destruct (fs !! output_path) as [[text|msg]|] eqn:Hout;
      [|by destruct (Hw msg)|]; cbn [fs_after]; by rewrite lookup_insert_eq.
  - intros Hempty. unfold read_and_scan, open_read in Hscan.
    rewrite Hempty in Hscan. cbn in Hscan. simplify_eq.
    split_and!; [done..|]. by vm_compute.
Qed.

(** Writing a file other than the input does not change the scan. *)
Lemma read_and_scan_insert fs input_path delimiter output_path n :
  input_path ≠ output_path →
  read_and_scan (<[output_path := n]> fs) input_path delimiter
  = read_and_scan fs input_path delimiter.
Proof.
  intros Hne. unfold read_and_scan, open_read.
  by rewrite lookup_insert_ne.
Qed.

(** C9. A run is a function of the contents of the input file, the
    delimiter and the output path: run again on the files the first run
    left, with an input file other than the report, it prints the same
    and leaves every file, the report among them, byte for byte as it
    was; and two runs that read the same input and can both write the
    report write the same report. *)
Theorem process_file_deterministic input_path delimiter output_path :
  (∀ fs,
     input_path ≠ output_path →
     let first := process_file fs input_path delimiter output_path in
     process_file (fs_after first) input_path delimiter output_path = first)
  ∧ (∀ fs1 fs2,
       open_read fs1 input_path = open_read fs2 input_path →
       (∀ msg, fs1 !! output_path ≠ Some (Blocked msg)) →
       (∀ msg, fs2 !! output_path ≠ Some (Blocked msg)) →
       let o1 := process_file fs1 input_path delimiter output_path in
       let o2 := process_file fs2 input_path delimiter output_path in
       printed o1 = printed o2
       ∧ exit_code o1 = exit_code o2
       ∧ (exit_code o1 = None →
          ∃ report,
            fs_after o1 !! output_path = Some (File report)
            ∧ fs_after o2 !! output_path = Some (File report))).
Proof.
  split.
  - intros fs Hne first. subst first.
    destruct (read_and_scan fs input_path delimiter) as [st|e] eqn:Hscan.
    + destruct (open_write fs output_path (report_text st)) as [fs'|e] eqn:Hw.
      * assert (process_file fs input_path delimiter output_path
                = {| printed := [msg_saved output_path]; fs_after := fs';
                     exit_code := None |}) as ->
          by (unfold process_file; by rewrite Hscan, Hw).
        cbn [fs_after].
        assert (fs' = <[output_path := File (report_text st)]> fs) as ->
          by (unfold open_write in Hw;
              destruct (fs !! output_path) as [[]|]; by simplify_eq).
        unfold process_file.
        rewrite (read_and_scan_insert _ _ _ _ _ Hne), Hscan.
        unfold open_write. by rewrite lookup_insert_eq, insert_insert_eq.
      * assert (process_file fs input_path delimiter output_path
                = {| printed := [msg_write_error e]; fs_after := fs;
                     exit_code := None |}) as Hp
          by (unfold process_file; by rewrite Hscan, Hw).
        by rewrite Hp.
    + assert (fs_after (process_file fs input_path delimiter output_path) = fs)
        as -> by (unfold process_file; rewrite Hscan; by destruct e).
      done.
  - intros fs1 fs2 Hread Hw1 Hw2 o1 o2. subst o1 o2.
    unfold process_file, read_and_scan. rewrite Hread.
    destruct (open_read fs2 input_path) as [text|e]; cbn [mbind result_bind].
    + destruct (scan delimiter initial_state 1 (file_lines text)) as [st|e].
      * unfold open_write.
        destruct (fs1 !! output_path) as [[?|msg]|] eqn:Hout1;
          [|by destruct (Hw1 msg)|];
          (destruct (fs2 !! output_path) as [[?|msg]|] eqn:Hout2;
            [|by destruct (Hw2 msg)|]);
          cbn [printed exit_code fs_after];
          (split_and!; [done..|]); intros _; exists (report_text st);
          by rewrite !lookup_insert_eq.
      * by destruct e.
    + by destruct e.
Qed.

End Claims.

(** ** The properties at concrete inputs *)

Lemma validate_record_field_count_witness :
  split (strip (u8 "a,b")) (u8 ",") = Ret [u8 "a"; u8 "b"]
  ∧ length [u8 "a"; u8 "b"] ≠ 3%nat
  ∧ @validate_record plain_interpreter (u8 "a,b") (u8 ",") {[7]}
    = Ret (false, [u8 "Ожидается 3 поля, получено " ++ str_of_nat 2], {[7]}).
Proof.
  split_and!; [vm_compute; reflexivity | simpl; lia |].
  apply (@validate_record_field_count plain_interpreter
           (u8 "a,b") (u8 ",") {[7]} [u8 "a"; u8 "b"]);
    [vm_compute; reflexivity | simpl; lia].
Defined.

Lemma validate_record_seen_ids_witness :
  @validate_record plain_interpreter (u8 "7,Seven,-2") (u8 ",") {[7]}
  = Ret (false,
         [u8 "ID: Дублирующийся идентификатор";
          u8 "Value: Отрицательное значение"], {[7]})
  ∧ ({[7]} : gset Z) = {[7]}.
Proof.
  split; [vm_compute; reflexivity|].
  apply (proj1 (@validate_record_seen_ids plain_interpreter)
           (u8 "7,Seven,-2") (u8 ",") {[7]}
           [u8 "ID: Дублирующийся идентификатор";
            u8 "Value: Отрицательное значение"]).
  vm_compute; reflexivity.
Defined.

Lemma validate_record_all_errors_witness :
  split (strip (u8 "1,Gadget,-3")) (u8 ",")
  = Ret [u8 "1"; u8 "Gadget"; u8 "-3"]
  ∧ ∃ seen',
      @validate_record plain_interpreter (u8 "1,Gadget,-3") (u8 ",") {[1]}
      = Ret (bool_decide
               (@spec_errors plain_interpreter
                  (u8 "1") (u8 "Gadget") (u8 "-3") {[1]} = []),
             @spec_errors plain_interpreter
               (u8 "1") (u8 "Gadget") (u8 "-3") {[1]}, seen')
      ∧ ¬ (u8 "ID: Некорректный формат идентификатора"
             ∈ @spec_errors plain_interpreter
                 (u8 "1") (u8 "Gadget") (u8 "-3") {[1]}
           ∧ u8 "ID: Дублирующийся идентификатор"
             ∈ @spec_errors plain_interpreter
                 (u8 "1") (u8 "Gadget") (u8 "-3") {[1]}).
Proof.
  split; [vm_compute; reflexivity|].
  apply (proj1 (@validate_record_all_errors plain_interpreter)).
  vm_compute; reflexivity.
Defined.

Lemma scan_invariant_witness :
  ∃ final,
    @scan plain_interpreter (u8 ",") initial_state 1
      ([u8 "1,Widget,10.5" ++ nl] ++ (u8 "1,Gadget,-3" ++ nl) :: [])
    = Ret final
    ∧ ∃ st st',
        @scan plain_interpreter (u8 ",") initial_state 1
          [u8 "1,Widget,10.5" ++ nl] = Ret st
        ∧ @process_line plain_interpreter (u8 ",") st 2
            (u8 "1,Gadget,-3" ++ nl) = Ret st'
        ∧ seen_ids st = list_to_set (accepted_ids st)
        ∧ seen_ids st' = list_to_set (accepted_ids st')
        ∧ valid_records st' `prefix_of` valid_records final.
Proof.
  set (final := match @scan plain_interpreter (u8 ",") initial_state 1
                        [u8 "1,Widget,10.5" ++ nl; u8 "1,Gadget,-3" ++ nl] with
                | Ret st => st
                | Raise _ => initial_state
                end).
  assert (@scan plain_interpreter (u8 ",") initial_state 1
            ([u8 "1,Widget,10.5" ++ nl] ++ (u8 "1,Gadget,-3" ++ nl) :: [])
          = Ret final) as Hfinal by (vm_compute; reflexivity).
  exists final. split; [exact Hfinal|].
  destruct (proj1 (@scan_invariant plain_interpreter (u8 ","))
              [u8 "1,Widget,10.5" ++ nl] (u8 "1,Gadget,-3" ++ nl) [] final
              Hfinal)
    as (st & st' & Hst & Hst' & _ & Hseen & Hseen' & _ & _ & _ & _ & Hkept).
  exists st, st'. split_and!; assumption.
Defined.

Lemma accepted_ids_distinct_witness :
  ∃ st,
    @scan plain_interpreter (u8 ",") initial_state 1 (file_lines scenario_text)
    = Ret st
    ∧ NoDup (accepted_ids st)
    ∧ @unique_ids_count (@aggregate plain_interpreter (valid_records st))
      = length (valid_records st).
Proof.
  exists (match @scan plain_interpreter (u8 ",") initial_state 1
                  (file_lines scenario_text) with
          | Ret st => st
          | Raise _ => initial_state
          end).
  split; [vm_compute; reflexivity|].
  destruct (proj1 (@accepted_ids_distinct plain_interpreter (u8 ",")
                     (file_lines scenario_text)) _
              ltac:(vm_compute; reflexivity)) as [Hnodup Hcount].
  split; [exact Hnodup|]. apply Hcount. vm_compute. discriminate.
Defined.

Lemma validate_record_trims_both_ends_witness :
  Forall (fun c => is_space c = true) (u8 "  ")
  ∧ Forall (fun c => is_space c = true) nl
  ∧ split (u8 "1,a,2") (u8 ",") = Ret [u8 "1"; u8 "a"; u8 "2"]
  ∧ strip (u8 "  " ++ u8 "1,a,2" ++ nl) = u8 "1,a,2"
  ∧ @validate_record plain_interpreter (u8 "  " ++ u8 "1,a,2" ++ nl) (u8 ",") ∅
    = @validate_record plain_interpreter (u8 "1,a,2") (u8 ",") ∅
  ∧ @validate_record plain_interpreter (u8 "1,a,2") (u8 ",") ∅
    = if truthy (@field_errors plain_interpreter (u8 "1") (u8 "a") (u8 "2") ∅)
      then Ret (false,
                @field_errors plain_interpreter (u8 "1") (u8 "a") (u8 "2") ∅,
                ∅)
      else Ret (@register_id plain_interpreter (u8 "1") ∅).
Proof.
  assert (Forall (fun c => is_space c = true) (u8 "  ")) as Hl
    by (repeat constructor).
  assert (Forall (fun c => is_space c = true) nl) as Ht
    by (repeat constructor).
  destruct (@validate_record_trims_both_ends plain_interpreter
              (u8 "1,a,2") (u8 ",") ∅)
    as (leading & core & trailing & _ & _ & _ & _ & _
        & Hcore & _ & _ & Hthree & Hpad).
  assert (core = u8 "1,a,2") as ->
    by (rewrite <- Hcore; vm_compute; reflexivity).
  assert (split (u8 "1,a,2") (u8 ",") = Ret [u8 "1"; u8 "a"; u8 "2"])
    as Hparts by (vm_compute; reflexivity).
  destruct (Hpad (u8 "  ") nl Hl Ht) as [Hstrip Hsame].
  split_and!;
    [exact Hl | exact Ht | exact Hparts | exact Hstrip | exact Hsame |].
  exact (Hthree _ _ _ Hparts).
Defined.

(** C7 at an input where it fails: with a blank as delimiter, the line
    [" 1 a 2"] has three fields once trimmed at both ends and is
    accepted; trimmed at its end only, it would have four. *)
Lemma leading_whitespace_counterexample :
  split (strip (u8 " 1 a 2")) (u8 " ") = Ret [u8 "1"; u8 "a"; u8 "2"]
  ∧ split (rstrip (u8 " 1 a 2")) (u8 " ") = Ret [[]; u8 "1"; u8 "a"; u8 "2"]
  ∧ split (strip (u8 " 1 a 2")) (u8 " ")
    ≠ split (rstrip (u8 " 1 a 2")) (u8 " ")
  ∧ @validate_record plain_interpreter (u8 " 1 a 2") (u8 " ") ∅
    = Ret (true, [], {[1]}).
Proof.
  split_and!; [vm_compute; reflexivity..| |vm_compute; reflexivity].
  vm_compute. discriminate.
Qed.

Lemma main_fatal_errors_witness :
  (length [u8 "Task_5.py"] < 2)%nat
  ∧ @main plain_interpreter [u8 "Task_5.py"] ∅
    = {| printed := usage; fs_after := ∅; exit_code := Some 1 |}.
Proof.
  split; [simpl; lia|].
  apply (proj1 (@main_fatal_errors plain_interpreter) [u8 "Task_5.py"] ∅).
  simpl; lia.
Defined.

(** C6 at an input where it fails: the input file is missing; the
    program exits with status 1 after one line, and no line of the usage
    message is printed. *)
Lemma missing_file_counterexample :
  let o := @main plain_interpreter [u8 "Task_5.py"; u8 "missing.txt"] ∅ in
  exit_code o = Some 1
  ∧ printed o = [u8 "Ошибка: файл 'missing.txt' не найден."]
  ∧ Forall (fun line => line ∉ printed o) usage.
Proof.
  split_and!; [vm_compute; reflexivity..|].
  prove_by_computation.
Qed.

Lemma report_without_valid_records_witness :
  let fs : gmap str node := {[ u8 "data.txt" := File [] ]} in
  @read_and_scan plain_interpreter fs (u8 "data.txt") (u8 ",")
  = Ret initial_state
  ∧ valid_records initial_state = []
  ∧ fs_after (@process_file plain_interpreter fs
                (u8 "data.txt") (u8 ",") (u8 "report.txt"))
      !! u8 "report.txt"
    = Some (File (@report_text plain_interpreter initial_state))
  ∧ valid_lines initial_state
    = [ nl ++ u8 "Корректные записи:"; u8 "  Корректных записей не найдено." ].
Proof.
  intros fs.
  assert (@read_and_scan plain_interpreter fs (u8 "data.txt") (u8 ",")
          = Ret initial_state) as Hscan by (vm_compute; reflexivity).
  destruct (@report_without_valid_records plain_interpreter
              fs (u8 "data.txt") (u8 ",") (u8 "report.txt") initial_state
              Hscan eq_refl)
    as (_ & _ & Hvalid & _ & _ & _ & Hwritten & _).
  split_and!; [exact Hscan | reflexivity | | exact Hvalid].
  apply Hwritten. intros msg Hblocked. vm_compute in Hblocked. discriminate.
Defined.

(** C8 at an input where it fails: the only line of the file is
    rejected; no record is valid, the section of the valid records holds
    its fallback line, the section of the invalid records does not. *)
Lemma zero_valid_counterexample :
  ∃ st,
    @scan plain_interpreter (u8 ",") initial_state 1 (file_lines (u8 "abc"))
    = Ret st
    ∧ valid_records st = []
    ∧ invalid_lines st
      = [ nl ++ u8 "Детализация некорректных записей:";
          u8 "  Строка 1: abc";
          u8 "      Ошибка: Ожидается 3 поля, получено 1";
          [] ]
    ∧ (u8 "  Некорректных записей не найдено."
         ∉ @report_lines plain_interpreter st)
    ∧ u8 "  Корректных записей не найдено."
      ∈ @report_lines plain_interpreter st.
Proof.
  exists (match @scan plain_interpreter (u8 ",") initial_state 1
                  (file_lines (u8 "abc")) with
          | Ret st => st
          | Raise _ => initial_state
          end).
  split_and!; [vm_compute; reflexivity..| |].
  - refute_by_computation.
  - prove_by_computation.
Qed.

Lemma process_file_deterministic_witness :
  let fs : gmap str node := {[ u8 "data.txt" := File scenario_text ]} in
  let first :=
    @process_file plain_interpreter fs
      (u8 "data.txt") (u8 ",") (u8 "report.txt") in
  u8 "data.txt" ≠ u8 "report.txt"
  ∧ @process_file plain_interpreter (fs_after first)
      (u8 "data.txt") (u8 ",") (u8 "report.txt") = first.
Proof.
  intros fs first.
  assert (u8 "data.txt" ≠ u8 "report.txt") as Hne
    by (vm_compute; discriminate).
  split; [exact Hne|].
  exact (proj1 (@process_file_deterministic plain_interpreter
                  (u8 "data.txt") (u8 ",") (u8 "report.txt")) fs Hne).
Defined.

(** Where the report is written over the input file, the second run
    reads the first run's report: the hypothesis of C9 that both runs
    read the same input is needed. *)
Example report_written_over_input :
  let fs : gmap str node := {[ u8 "data.txt" := File scenario_text ]} in
  let first :=
    @process_file plain_interpreter fs
      (u8 "data.txt") (u8 ",") (u8 "data.txt") in
  @process_file plain_interpreter (fs_after first)
    (u8 "data.txt") (u8 ",") (u8 "data.txt") ≠ first.
Proof.
  intros fs first Heq.
  apply (f_equal (fun o => length <$> (fs_after o !! u8 "data.txt" ≫=
                             fun n => match n with
                                      | File t => Some t
                                      | Blocked _ => None
                                      end))) in Heq.
  vm_compute in Heq. discriminate.
Qed.

(** ** Further properties of the built-ins *)

Lemma join_cons (sep x : str) (l : list str) :
  l ≠ [] → join sep (x :: l) = x ++ sep ++ join sep l.
Proof. by destruct l. Qed.

Lemma split_from_nonempty (sep s : str) (skip : nat) (cur : str) :
  split_from sep s skip cur ≠ [].
Proof.
  revert skip cur. induction s as [|a s IH]; intros skip cur; [done|].
  simpl. destruct skip; [|apply IH].
  destruct (starts_with sep (a :: s)); [done | apply IH].
Qed.

Lemma split_from_skip (sep pre s cur : str) :
  split_from sep (pre ++ s) (length pre) cur = split_from sep s 0 cur.
Proof. induction pre as [|a pre IH]; [done | exact IH]. Qed.

Lemma starts_with_app (sep s : str) :
  starts_with sep s = true → ∃ rest, s = sep ++ rest.
Proof.
  revert s. induction sep as [|a sep IH]; intros s Hs; [by exists s|].
  destruct s as [|b s]; [done|]. simpl in Hs.
  apply andb_prop in Hs as [Hab Hs]. apply N.eqb_eq in Hab as ->.
  destruct (IH _ Hs) as [rest ->]. by exists rest.
Qed.

(** Joining the fields of a split with the separator gives the string
    back. *)
Lemma join_split_from (sep s cur : str) :
  sep ≠ [] → join sep (split_from sep s 0 cur) = rev cur ++ s.
Proof.
  intros Hsep. remember (length s) as n eqn:Hn.
  revert s cur Hn. induction (lt_wf n) as [n _ IH]. intros s cur ->.
  destruct s as [|c s]; [simpl; by rewrite app_nil_r|].
  cbn [split_from]. destruct (starts_with sep (c :: s)) eqn:Hstart.
  - destruct (starts_with_app _ _ Hstart) as [rest Hrest].
    destruct sep as [|c0 sep']; [done|]. simpl in Hrest.
    injection Hrest as -> ->.
    replace (length (c0 :: sep') - 1)%nat with (length sep')
      by (simpl; lia).
    rewrite split_from_skip.
    rewrite join_cons by apply split_from_nonempty.
    rewrite (IH (length rest)) with (s := rest) (cur := []);
      [done | simpl; rewrite length_app; lia | done].
  - rewrite (IH (length s)) with (s := s) (cur := c :: cur);
      [|simpl; lia | done].
    simpl. by rewrite <- app_assoc.
Qed.

Lemma join_split (s sep : str) (parts : list str) :
  split s sep = Ret parts → join sep parts = s.
Proof.
  unfold split. destruct (decide (sep = [])) as [->|Hsep]; [done|].
  destruct sep as [|c sep']; [done|].
  intros [= <-]. by rewrite join_split_from.
Qed.

(** [sorted] permutes its argument and, for a total order, sorts it. *)
Lemma insert_sorted_perm {A} (le : A → A → bool) (x : A) (l : list A) :
  insert_sorted le x l ≡ₚ x :: l.
Proof.
  induction l as [|y l IH]; [done|]. simpl.
  destruct (le x y); [done|]. rewrite IH. apply Permutation_swap.
Qed.

Lemma sorted_perm {A} (le : A → A → bool) (l : list A) : sorted le l ≡ₚ l.
Proof.
  induction l as [|x l IH]; [done|]. unfold sorted in *. simpl.
  by rewrite insert_sorted_perm, IH.
Qed.

Lemma insert_sorted_Sorted {A} (le : A → A → bool) (x : A) (l : list A) :
  (∀ a b, le a b = false → le b a = true) →
  Sorted (fun a b => le a b = true) l →
  Sorted (fun a b => le a b = true) (insert_sorted le x l).
Proof.
  intros Htotal. induction 1 as [|y l Hl IH Hy]; simpl.
  - by repeat constructor.
  - destruct (le x y) eqn:Hxy.
    + constructor; [by constructor | by constructor].
    + constructor; [exact IH|].
      destruct l as [|z l]; simpl.
      * constructor. by apply Htotal.
      * destruct (le x z) eqn:Hxz;
          constructor; [by apply Htotal | by inversion Hy].
Qed.

Lemma sorted_Sorted {A} (le : A → A → bool) (l : list A) :
  (∀ a b, le a b = false → le b a = true) →
  Sorted (fun a b => le a b = true) (sorted le l).
Proof.
  intros Htotal. induction l as [|x l IH]; [constructor|].
  unfold sorted in *. simpl. by apply insert_sorted_Sorted.
Qed.

Lemma str_compare_opp (a b : str) :
  str_compare b a = CompOpp (str_compare a b).
Proof.
  revert b. induction a as [|x a IH]; intros [|y b]; simpl; try done.
  rewrite (N.compare_antisym x y).
  destruct (x ?= y)%N; simpl; [apply IH | done | done].
Qed.

Lemma item_le_total (x y : str * nat) : item_le x y = false → item_le y x = true.
Proof.
  unfold item_le. rewrite (str_compare_opp x.1 y.1).
  destruct (str_compare x.1 y.1); simpl; try done.
  intros Hle%Nat.leb_gt. apply Nat.leb_le. lia.
Qed.

Ltac refute_hypothesis H :=
  match type of H with
  | ?P =>
      exfalso; revert H; change (¬ P);
      apply (bool_decide_eq_false_1 P); vm_compute; reflexivity
  end.

(** ** Further properties of the validator *)

Section ValidatorMore.
Context `{Interpreter}.

Lemma check_id_length id_str seen : (length (check_id id_str seen) ≤ 1)%nat.
Proof.
  unfold check_id. destruct (negb _); [done|].
  destruct (int id_str); [case_bool_decide|]; simpl; lia.
Qed.

Lemma check_name_length name : (length (check_name name) ≤ 1)%nat.
Proof. unfold check_name. destruct (negb _); simpl; lia. Qed.

Lemma check_value_length value_str : (length (check_value value_str) ≤ 1)%nat.
Proof.
  unfold check_value. destruct (negb _); [done|].
  destruct (float value_str) as [v|]; [destruct (flt v fzero)|]; simpl; lia.
Qed.

Lemma field_errors_length id_str name value_str seen :
  (length (field_errors id_str name value_str seen) ≤ 3)%nat.
Proof.
  unfold field_errors. rewrite !length_app, !length_map.
  pose proof (check_id_length id_str seen).
  pose proof (check_name_length name).
  pose proof (check_value_length value_str). lia.
Qed.

(** Without an error of the id, the id parses and was not seen. *)
Lemma field_errors_nil id_str name value_str seen :
  field_errors id_str name value_str seen = [] →
  ∃ id_num, int id_str = Some id_num ∧ id_num ∉ seen.
Proof.
  unfold field_errors, check_id. intros Herr.
  apply app_eq_nil in Herr as [Hid _].
  destruct (negb _); [done|].
  destruct (int id_str) as [id_num|]; [|done].
  case_bool_decide; [done|]. by exists id_num.
Qed.

(** The two shapes of what [validate_record] returns. *)
Lemma validate_record_shape record delimiter seen is_valid errors seen' :
  validate_record record delimiter seen = Ret (is_valid, errors, seen') →
  (∃ parts,
     split (strip record) delimiter = Ret parts
     ∧ length parts ≠ 3%nat
     ∧ is_valid = false ∧ errors = [msg_field_count (length parts)]
     ∧ seen' = seen)
  ∨ (∃ id_str name value_str,
       split (strip record) delimiter = Ret [id_str; name; value_str]
       ∧ errors = field_errors id_str name value_str seen
       ∧ is_valid = negb (truthy errors)
       ∧ (errors ≠ [] → seen' = seen)
       ∧ (errors = [] →
          ∃ id_num, int id_str = Some id_num ∧ seen' = {[id_num]} ∪ seen)).
Proof.
  intros Hv.
  destruct (split (strip record) delimiter) as [parts|e] eqn:Hparts;
    [|by unfold validate_record in Hv; rewrite Hparts in Hv].
  destruct (decide (length parts = 3%nat)) as [Hlen|Hlen].
  - right. destruct parts as [|id_str [|name [|value_str [|? ?]]]]; try done.
    exists id_str, name, value_str. split; [done|].
    rewrite (validate_record_three _ _ _ _ _ _ Hparts) in Hv.
    destruct (field_errors id_str name value_str seen) as [|e errs] eqn:Herr.
    + destruct (field_errors_nil _ _ _ _ Herr) as (id_num & Hid & _).
      simpl in Hv. unfold register_id in Hv. rewrite Hid in Hv.
      simplify_eq. split_and!; [done..|]. intros _. by exists id_num.
    + simpl in Hv. simplify_eq. by split_and!.
  - left. exists parts.
    rewrite (validate_record_other _ _ _ _ Hparts Hlen) in Hv.
    by simplify_eq.
Qed.

(** The set [seen_ids] matters to the id's check through the duplicate
    test alone. *)
Lemma check_id_seen id_str seen :
  check_id id_str seen = []
  ↔ check_id id_str ∅ = [] ∧ ∀ id_num, int id_str = Some id_num → id_num ∉ seen.
Proof.
  unfold check_id. destruct (negb _); [by split; [|intros []]|].
  destruct (int id_str) as [id_num|]; [|by split; [|intros []]].
  rewrite (bool_decide_eq_false_2 (id_num ∈ (∅ : gset Z)))
    by apply not_elem_of_empty.
  case_bool_decide as Hseen.
  - split; [done|]. intros [_ Hnew]. by destruct (Hnew id_num).
  - split; [|done]. intros _. split; [done|]. by intros ? [= <-].
Qed.

Lemma msg_field_count_one :
  msg_field_count 1 = u8 "Ожидается 3 поля, получено 1".
Proof. vm_compute; reflexivity. Qed.

(** X1. [validate_record] returns [True] exactly when it returns no
    error, and it never returns more than three errors. *)
Theorem validate_record_verdict record delimiter seen is_valid errors seen' :
  validate_record record delimiter seen = Ret (is_valid, errors, seen') →
  (is_valid = true ↔ errors = []) ∧ (length errors ≤ 3)%nat.
Proof.
  intros [(parts & _ & _ & -> & -> & _)
         |(id_str & name & value_str & _ & Herr & -> & _)]%validate_record_shape.
  - split; [done | simpl; lia].
  - split; [by destruct errors|].
    rewrite Herr. apply field_errors_length.
Qed.

(** X2. On a line of three fields each "empty" error is returned exactly
    when its field is blank after trimming; and for a blank id neither
    the format error nor the duplicate error is returned. *)
Theorem blank_fields_reported
    record delimiter seen id_str name value_str is_valid errors seen' :
  split (strip record) delimiter = Ret [id_str; name; value_str] →
  validate_record record delimiter seen = Ret (is_valid, errors, seen') →
  (u8 "ID: Пустой идентификатор" ∈ errors ↔ strip id_str = [])
  ∧ (u8 "Name: Пустое название" ∈ errors ↔ strip name = [])
  ∧ (u8 "Value: Пустое значение" ∈ errors ↔ strip value_str = [])
  ∧ (strip id_str = [] →
     (u8 "ID: Некорректный формат идентификатора" ∉ errors)
     ∧ (u8 "ID: Дублирующийся идентификатор" ∉ errors)).
Proof.
  intros Hparts Hv.
  assert (errors = spec_errors id_str name value_str seen) as ->.
  { rewrite (validate_record_three _ _ _ _ _ _ Hparts) in Hv.
    rewrite <- field_errors_spec.
    destruct (field_errors id_str name value_str seen) eqn:Herr;
      simpl in Hv; [|by simplify_eq].
    destruct (field_errors_nil _ _ _ _ Herr) as (id_num & Hid & _).
    unfold register_id in Hv. rewrite Hid in Hv. by simplify_eq. }
  clear Hv.
  unfold spec_errors, spec_id_errors, spec_name_errors, spec_value_errors.
  repeat first [case_bool_decide | case_match];
    (split_and!;
     [split; [intros Hin | intros Hblank] ..
     | intros Hblank; split; intros Hin]);
    first [ done
          | refute_hypothesis Hin
          | prove_by_computation ].
Qed.

(** X3. A line is accepted against [seen_ids] exactly when it is
    accepted against the empty set and its id is not in [seen_ids]. *)
Theorem acceptance_against_seen_ids record delimiter seen :
  (∃ errors seen',
     validate_record record delimiter seen = Ret (true, errors, seen'))
  ↔ (∃ id_num,
       validate_record record delimiter ∅ = Ret (true, [], {[id_num]})
       ∧ id_num ∉ seen).
Proof.
  split.
  - intros (errors & seen' & Hv).
    destruct (validate_record_shape _ _ _ _ _ _ Hv)
      as [(parts & _ & _ & ? & _)|(id_str & name & value_str
           & Hparts & Herr & Hvalid & _ & _)]; [done|].
    destruct errors; [|done]. symmetry in Herr.
    destruct (field_errors_nil _ _ _ _ Herr) as (id_num & Hid & Hnew).
    exists id_num. split; [|done].
    rewrite (validate_record_three _ _ _ _ _ _ Hparts).
    unfold field_errors in *.
    apply app_eq_nil in Herr as [Hide Hrest].
    apply (inj (fmap label_id)) in Hide ||
      (apply map_eq_nil in Hide).
    apply check_id_seen in Hide as [-> _]. simpl. rewrite Hrest. simpl.
    unfold register_id. rewrite Hid. by rewrite union_empty_r_L.
  - intros (id_num & Hv & Hnew).
    destruct (validate_record_shape _ _ _ _ _ _ Hv)
      as [(parts & _ & _ & ? & _)|(id_str & name & value_str
           & Hparts & Herr & _ & _ & Hreg)]; [done|].
    destruct (Hreg eq_refl) as (id_num' & Hid & Hset).
    assert (id_num' = id_num) as ->.
    { assert (id_num' ∈ ({[id_num]} : gset Z)) as Hin
        by (rewrite Hset; apply elem_of_union_l; by apply elem_of_singleton).
      by apply elem_of_singleton in Hin. }
    exists [], ({[id_num]} ∪ seen).
    rewrite (validate_record_three _ _ _ _ _ _ Hparts).
    symmetry in Herr. unfold field_errors in *.
    apply app_eq_nil in Herr as [Hide Hrest].
    apply map_eq_nil in Hide.
    assert (check_id id_str seen = []) as ->.
    { apply check_id_seen. split; [done|]. intros n Hn. by simplify_eq. }
    simpl. rewrite Hrest. simpl. unfold register_id. by rewrite Hid.
Qed.

(** X4. A line of whitespace only (a blank line of the file among them)
    is not skipped: whatever the delimiter, it is rejected with the one
    error that a single field was found. *)
Theorem blank_line_rejected line delimiter seen :
  delimiter ≠ [] →
  Forall (fun c => is_space c = true) line →
  validate_record line delimiter seen
  = Ret (false, [u8 "Ожидается 3 поля, получено 1"], seen).
Proof.
  intros Hd Hline. rewrite <- msg_field_count_one.
  assert (split (strip line) delimiter = Ret [[]]) as Hparts.
  { rewrite (strip_spaces _ Hline). by destruct delimiter. }
  by rewrite (validate_record_other _ _ _ _ Hparts).
Qed.

(** X5. The text kept for a record, the trimmed line, is trimmed
    already, and [validate_record] gives on it what it gives on the
    line. *)
Theorem validate_record_on_stripped record delimiter seen :
  strip (strip record) = strip record
  ∧ validate_record (strip record) delimiter seen
    = validate_record record delimiter seen.
Proof.
  split; [apply strip_idemp|].
  unfold validate_record. by rewrite strip_idemp.
Qed.

End ValidatorMore.

(** ** Further properties of the scan *)

Section ScanMore.
Context `{Interpreter}.

(** The two ways a line changes the state. *)
Lemma process_line_cases delimiter st line_num line st' :
  process_line delimiter st line_num line = Ret st' →
  (∃ r id_str value_str,
     split (strip line) delimiter = Ret [id_str; rec_name r; value_str]
     ∧ int id_str = Some (rec_id r) ∧ (rec_id r ∉ seen_ids st)
     ∧ strip (rec_name r) ≠ []
     ∧ float value_str = Some (rec_value r) ∧ flt (rec_value r) fzero = false
     ∧ rec_original r = strip line
     ∧ st' = {| total_records := S (total_records st);
                valid_records := valid_records st ++ [r];
                invalid_records := invalid_records st;
                error_counts := error_counts st;
                seen_ids := {[rec_id r]} ∪ seen_ids st |})
  ∨ (∃ errors,
       validate_record line delimiter (seen_ids st)
       = Ret (false, errors, seen_ids st)
       ∧ st' = {| total_records := S (total_records st);
                  valid_records := valid_records st;
                  invalid_records :=
                    invalid_records st ++ [(line_num, strip line, errors)];
                  error_counts :=
                    fold_left (fun counts error => count_error error counts)
                              errors (error_counts st);
                  seen_ids := seen_ids st |}).
Proof.
  intros Hp.
  destruct (validate_record line delimiter (seen_ids st))
    as [[[[] errors] seen']|e] eqn:Hv.
  - destruct (process_line_accepted _ _ line_num _ _ _ Hv)
      as (r & id_str & name & value_str
          & Hparts & Hid & Hnew & <- & Hname & Hval & Hneg & Horig & Hp').
    rewrite Hp' in Hp. left. exists r, id_str, value_str. by simplify_eq.
  - destruct (validate_record_rejects _ _ _ _ _ Hv) as [-> _].
    rewrite (process_line_rejected _ _ line_num _ _ _ Hv) in Hp.
    right. exists errors. by simplify_eq.
  - unfold process_line in Hp. by rewrite Hv in Hp.
Qed.

(** An induction over the lines of a scan: what holds of the first state
    and is kept by every line holds of the last state. *)
Lemma scan_induction (P : state → Prop) delimiter st line_num lines st' :
  P st →
  (∀ st1 n line st2,
     P st1 → process_line delimiter st1 n line = Ret st2 → P st2) →
  scan delimiter st line_num lines = Ret st' →
  P st'.
Proof.
  intros Hst Hstep. revert st line_num Hst.
  induction lines as [|line lines IH]; intros st line_num Hst Hs; simpl in Hs.
  - by simplify_eq.
  - destruct (process_line delimiter st line_num line) as [st1|e] eqn:Hp;
      [|done].
    eapply IH; [|exact Hs]. by eapply Hstep.
Qed.

Lemma validate_record_errors_begin record delimiter seen errors seen' :
  validate_record record delimiter seen = Ret (false, errors, seen') →
  Forall begins_like_validation errors.
Proof.
  intros [(parts & _ & _ & _ & -> & _)
         |(id_str & name & value_str & _ & -> & _)]%validate_record_shape.
  - repeat constructor.
  - unfold field_errors. rewrite !Forall_app, !Forall_fmap.
    split_and!; apply Forall_forall; intros e _; unfold begins_like_validation;
      simpl; vm_compute; tauto.
Qed.

Lemma count_error_keys_Forall (P : str → Prop) error counts :
  P error → Forall P counts.*1 → Forall P (count_error error counts).*1.
Proof.
  intros He. induction counts as [|[k m] counts IH]; simpl; intros Hkeys.
  - by repeat constructor.
  - apply Forall_cons_1 in Hkeys as [Hk Hrest].
    case_bool_decide; simpl; constructor; auto.
Qed.

(** X6. The two internal-error messages are never reported: a line that
    [validate_record] accepts always passes the second parse of
    [process_file], and the second parse of the id in [validate_record]
    never fails. *)
Theorem internal_errors_never_reported delimiter lines st :
  scan delimiter initial_state 1 lines = Ret st →
  (u8 "Внутренняя ошибка обработки" ∉ reported_errors st)
  ∧ (u8 "Внутренняя ошибка: не удалось преобразовать ID"
       ∉ reported_errors st)
  ∧ tally_get (u8 "Внутренняя ошибка обработки") (error_counts st) = 0%nat.
Proof.
  intros Hscan.
  enough (Forall begins_like_validation (reported_errors st)
          ∧ Forall begins_like_validation (error_counts st).*1)
    as [Hrep Hkeys].
  { split_and!.
    - intros Hin. eapply Forall_forall in Hrep; [|exact Hin].
      vm_compute in Hrep. intuition discriminate.
    - intros Hin. eapply Forall_forall in Hrep; [|exact Hin].
      vm_compute in Hrep. intuition discriminate.
    - induction (error_counts st) as [|[k n] rest IH]; [done|].
      apply Forall_cons_1 in Hkeys as [Hk Hrest]. simpl.
      case_bool_decide as Heq; [|by apply IH].
      rewrite Heq in Hk. vm_compute in Hk. intuition discriminate. }
  apply (scan_induction
           (fun s => Forall begins_like_validation (reported_errors s)
                     ∧ Forall begins_like_validation (error_counts s).*1)
           delimiter initial_state 1%nat lines st);
    [by split; constructor | | exact Hscan].
  intros st1 n line st2 [Hrep Hkeys]
    [(r & ? & ? & _ & _ & _ & _ & _ & _ & _ & ->)|(errors & Hv & ->)]%process_line_cases;
    [done|].
  apply validate_record_errors_begin in Hv.
  unfold reported_errors. cbn [invalid_records error_counts].
  rewrite map_app, concat_app. simpl. rewrite app_nil_r.
  split; [by apply Forall_app|].
  clear Hrep. revert Hkeys. generalize (error_counts st1).
  induction Hv as [|e errors He _ IH]; intros counts Hkeys; [done|].
  simpl. apply IH. by apply count_error_keys_Forall.
Qed.

Lemma tally_get_count_error error e counts :
  tally_get error (count_error e counts)
  = (tally_get error counts + if bool_decide (e = error) then 1 else 0)%nat.
Proof.
  induction counts as [|[k n] counts IH]; simpl.
  - repeat case_bool_decide; simplify_eq; lia.
  - repeat case_bool_decide; simpl; repeat case_bool_decide;
      simplify_eq; lia.
Qed.

Lemma tally_sum_count_error e counts :
  foldr Nat.add 0%nat (map snd (count_error e counts))
  = S (foldr Nat.add 0%nat (map snd counts)).
Proof.
  induction counts as [|[k n] counts IH]; simpl; [done|].
  case_bool_decide; simpl; [done|]. rewrite IH. lia.
Qed.

Lemma tally_get_fold error errors counts :
  tally_get error
    (fold_left (fun counts e => count_error e counts) errors counts)
  = (tally_get error counts
     + length (filter (fun e => e = error) errors))%nat.
Proof.
  revert counts. induction errors as [|e errors IH]; intros counts; simpl.
  - lia.
  - rewrite IH, tally_get_count_error, filter_cons.
    case_bool_decide; case_decide; simplify_eq; simpl; lia.
Qed.

Lemma tally_sum_fold errors counts :
  foldr Nat.add 0%nat
    (map snd (fold_left (fun counts e => count_error e counts) errors counts))
  = (foldr Nat.add 0%nat (map snd counts) + length errors)%nat.
Proof.
  revert counts. induction errors as [|e errors IH]; intros counts; simpl.
  - lia.
  - rewrite IH, tally_sum_count_error. lia.
Qed.

Lemma reported_errors_snoc st (rej : rejected) valid total counts seen :
  reported_errors
    {| total_records := total; valid_records := valid;
       invalid_records := invalid_records st ++ [rej];
       error_counts := counts; seen_ids := seen |}
  = reported_errors st ++ rej.2.
Proof.
  unfold reported_errors. cbn [invalid_records].
  rewrite map_app, concat_app. simpl. by rewrite app_nil_r.
Qed.

(** X7. The tally agrees with the rejected records: the count under a
    message is the number of times the message occurs among their
    errors, the total of the counts is the number of their errors, and
    that number lies between the number of rejected records and three
    times as many. *)
Theorem tally_counts_reported_errors delimiter lines st :
  scan delimiter initial_state 1 lines = Ret st →
  (∀ error,
     tally_get error (error_counts st)
     = length (filter (fun e => e = error) (reported_errors st)))
  ∧ foldr Nat.add 0%nat (map snd (error_counts st))
    = length (reported_errors st)
  ∧ (length (invalid_records st) ≤ length (reported_errors st))%nat
  ∧ (length (reported_errors st) ≤ 3 * length (invalid_records st))%nat.
Proof.
  intros Hscan.
  apply (scan_induction
           (fun s =>
              (∀ error,
                 tally_get error (error_counts s)
                 = length (filter (fun e => e = error) (reported_errors s)))
              ∧ foldr Nat.add 0%nat (map snd (error_counts s))
                = length (reported_errors s)
              ∧ (length (invalid_records s) ≤ length (reported_errors s))%nat
              ∧ (length (reported_errors s)
                 ≤ 3 * length (invalid_records s))%nat)
           delimiter initial_state 1%nat lines st);
    [by split_and!; simpl; try lia | | exact Hscan].
  intros st1 n line st2 (Hget & Hsum & Hlow & Hhigh)
    [(r & ? & ? & _ & _ & _ & _ & _ & _ & _ & ->)|(errors & Hv & ->)]%process_line_cases;
    [done|].
  rewrite reported_errors_snoc. cbn [error_counts invalid_records snd].
  destruct (validate_record_rejects _ _ _ _ _ Hv) as [_ Hne].
  assert (length errors ≤ 3)%nat as Hmax.
  { destruct (validate_record_shape _ _ _ _ _ _ Hv)
      as [(parts & _ & _ & _ & -> & _)
         |(id_str & name & value_str & _ & -> & _)];
      [simpl; lia | apply field_errors_length]. }
  assert (1 ≤ length errors)%nat by (destruct errors; [done | simpl; lia]).
  split_and!.
  - intros error. by rewrite tally_get_fold, Hget, filter_app, length_app.
  - by rewrite tally_sum_fold, Hsum, length_app.
  - rewrite !length_app. simpl. lia.
  - rewrite !length_app. simpl. lia.
Qed.

Lemma count_error_keys e counts :
  (count_error e counts).*1
  = if bool_decide (e ∈ counts.*1) then counts.*1 else counts.*1 ++ [e].
Proof.
  induction counts as [|[k n] counts IH]; [done|].
  cbn [count_error fmap list_fmap fst].
  destruct (decide (k = e)) as [->|Hk].
  - rewrite (bool_decide_eq_true_2 (e = e)) by done.
    rewrite (bool_decide_eq_true_2 (e ∈ e :: counts.*1)) by left.
    done.
  - rewrite (bool_decide_eq_false_2 (k = e)) by done.
    cbn [fmap list_fmap fst]. rewrite IH.
    destruct (decide (e ∈ counts.*1)) as [Hin|Hin].
    + rewrite (bool_decide_eq_true_2 (e ∈ counts.*1)) by done.
      by rewrite (bool_decide_eq_true_2 (e ∈ k :: counts.*1)) by (by right).
    + rewrite (bool_decide_eq_false_2 (e ∈ counts.*1)) by done.
      rewrite (bool_decide_eq_false_2 (e ∈ k :: counts.*1)); [done|].
      intros [?|?]%elem_of_cons; by simplify_eq.
Qed.

Lemma count_error_positive e counts :
  Forall (fun kn : str * nat => (0 < kn.2)%nat) counts →
  Forall (fun kn : str * nat => (0 < kn.2)%nat) (count_error e counts).
Proof.
  induction 1 as [|[k n] counts Hk Hrest IH]; simpl.
  - repeat constructor.
  - case_bool_decide; constructor; simpl in *; try done; lia.
Qed.

(** X8. The tally lists exactly the messages that occur among the errors
    of the rejected records, each once, with a count that is not zero. *)
Theorem tally_keys_reported_errors delimiter lines st :
  scan delimiter initial_state 1 lines = Ret st →
  NoDup (error_counts st).*1
  ∧ Forall (fun kn : str * nat => (0 < kn.2)%nat) (error_counts st)
  ∧ ∀ error, error ∈ (error_counts st).*1 ↔ error ∈ reported_errors st.
Proof.
  intros Hscan.
  apply (scan_induction
           (fun s =>
              NoDup (error_counts s).*1
              ∧ Forall (fun kn : str * nat => (0 < kn.2)%nat) (error_counts s)
              ∧ ∀ error,
                  error ∈ (error_counts s).*1 ↔ error ∈ reported_errors s)
           delimiter initial_state 1%nat lines st);
    [by split_and!; constructor | | exact Hscan].
  intros st1 n line st2 (Hnodup & Hpos & Hkeys)
    [(r & ? & ? & _ & _ & _ & _ & _ & _ & _ & ->)|(errors & _ & ->)]%process_line_cases;
    [done|].
  rewrite reported_errors_snoc. cbn [error_counts snd].
  revert Hnodup Hpos Hkeys.
  generalize (error_counts st1) (reported_errors st1).
  induction errors as [|e errors IH]; intros counts reported Hnodup Hpos Hkeys.
  - simpl. by rewrite app_nil_r.
  - simpl.
    replace (reported ++ e :: errors) with ((reported ++ [e]) ++ errors)
      by (by rewrite <- app_assoc).
    apply IH.
    + rewrite count_error_keys. case_bool_decide; [done|].
      apply NoDup_app. split_and!; [done | | apply NoDup_singleton].
      by intros x Hx ->%list_elem_of_singleton.
    + by apply count_error_positive.
    + intros error. rewrite count_error_keys, elem_of_app, <- Hkeys.
      rewrite list_elem_of_singleton.
      case_bool_decide as Hin; [|by rewrite elem_of_app, list_elem_of_singleton].
      split; [by left | by intros [?| ->]].
Qed.

(** What a scan adds: the texts of the new valid records are, in order,
    among the trimmed lines, and the new rejected records are, in order,
    among the numbered trimmed lines. *)
Lemma scan_sublists delimiter st line_num lines st' :
  scan delimiter st line_num lines = Ret st' →
  ∃ new_valid new_invalid,
    valid_records st' = valid_records st ++ new_valid
    ∧ invalid_records st' = invalid_records st ++ new_invalid
    ∧ map rec_original new_valid `sublist_of` map strip lines
    ∧ map (fun rej : rejected => rej.1) new_invalid
        `sublist_of` zip (seq line_num (length lines)) (map strip lines).
Proof.
  revert st line_num.
  induction lines as [|line lines IH]; intros st line_num Hs; simpl in Hs.
  - simplify_eq. exists [], []. by rewrite !app_nil_r.
  - destruct (process_line delimiter st line_num line) as [st1|e] eqn:Hp;
      [|done].
    cbn [mbind result_bind] in Hs.
    destruct (IH _ _ Hs) as (new_valid & new_invalid & Hv & Hi & Hsv & Hsi).
    apply process_line_cases in Hp
      as [(r & ? & ? & _ & _ & _ & _ & _ & _ & Horig & ->)
         |(errors & _ & ->)];
      cbn [valid_records invalid_records] in Hv, Hi.
    + exists (r :: new_valid), new_invalid.
      rewrite Hv, Hi, <- app_assoc. split_and!; [done..| |].
      * simpl. rewrite Horig. by apply sublist_skip.
      * simpl. by apply sublist_cons.
    + exists new_valid, ((line_num, strip line, errors) :: new_invalid).
      rewrite Hv, Hi, <- app_assoc. split_and!; [done..| |].
      * simpl. by apply sublist_cons.
      * simpl. by apply sublist_skip.
Qed.

(** X9. The rejected records, with their line numbers and texts, are in
    the order of the file among its numbered, trimmed lines: every line
    number is the 1-based position of the line whose trimmed text is
    kept, and the numbers increase. The errors kept are those that
    [validate_record] gives for that text. *)
Theorem rejected_records_numbered delimiter lines st :
  scan delimiter initial_state 1 lines = Ret st →
  map (fun rej : rejected => rej.1) (invalid_records st)
    `sublist_of` zip (seq 1 (length lines)) (map strip lines)
  ∧ Forall (fun rej : rejected =>
              ∃ seen,
                validate_record rej.1.2 delimiter seen
                = Ret (false, rej.2, seen))
           (invalid_records st).
Proof.
  intros Hscan. split.
  - destruct (scan_sublists _ _ _ _ _ Hscan) as (? & new & _ & Hi & _ & Hs).
    simpl in Hi. by rewrite Hi.
  - apply (scan_induction
             (fun s =>
                Forall (fun rej : rejected =>
                          ∃ seen,
                            validate_record rej.1.2 delimiter seen
                            = Ret (false, rej.2, seen))
                       (invalid_records s))
             delimiter initial_state 1%nat lines st);
      [constructor | | exact Hscan].
    intros st1 n line st2 Hall
      [(r & ? & ? & _ & _ & _ & _ & _ & _ & _ & ->)
      |(errors & Hv & ->)]%process_line_cases; [done|].
    cbn [invalid_records]. apply Forall_app. split; [done|].
    apply Forall_singleton. exists (seen_ids st1). simpl.
    unfold validate_record in *. by rewrite strip_idemp.
Qed.

(** X10. Every valid record comes from a line of the file, and the valid
    records keep the order of the file. The text kept for a record is
    the trimmed line, and it is the id field, the delimiter, the name,
    the delimiter and the value field put together, where the id field
    parses to the record's id and the value field to its value. *)
Theorem valid_records_from_lines delimiter lines st :
  scan delimiter initial_state 1 lines = Ret st →
  map rec_original (valid_records st) `sublist_of` map strip lines
  ∧ Forall (fun r =>
              ∃ id_str value_str,
                split (rec_original r) delimiter
                = Ret [id_str; rec_name r; value_str]
                ∧ int id_str = Some (rec_id r)
                ∧ float value_str = Some (rec_value r)
                ∧ rec_original r
                  = id_str ++ delimiter ++ rec_name r ++ delimiter
                      ++ value_str)
           (valid_records st).
Proof.
  intros Hscan. split.
  - destruct (scan_sublists _ _ _ _ _ Hscan) as (new & ? & Hv & _ & Hs & _).
    simpl in Hv. by rewrite Hv.
  - apply (scan_induction
             (fun s =>
                Forall (fun r =>
                          ∃ id_str value_str,
                            split (rec_original r) delimiter
                            = Ret [id_str; rec_name r; value_str]
                            ∧ int id_str = Some (rec_id r)
                            ∧ float value_str = Some (rec_value r)
                            ∧ rec_original r
                              = id_str ++ delimiter ++ rec_name r
                                  ++ delimiter ++ value_str)
                       (valid_records s))
             delimiter initial_state 1%nat lines st);
      [constructor | | exact Hscan].
    intros st1 n line st2 Hall
      [(r & id_str & value_str & Hparts & Hid & _ & _ & Hval & _ & Horig & ->)
      |(errors & _ & ->)]%process_line_cases; [|done].
    cbn [valid_records]. apply Forall_app. split; [done|].
    apply Forall_singleton. exists id_str, value_str.
    rewrite Horig. split_and!; [done..|].
    by rewrite <- (join_split _ _ _ Hparts).
Qed.

(** X11. Every line of the file is counted once: the total is the number
    of lines, and it is the number of valid records plus the number of
    rejected ones. *)
Theorem every_line_counted delimiter lines st :
  scan delimiter initial_state 1 lines = Ret st →
  total_records st = length lines
  ∧ (length (valid_records st) + length (invalid_records st))%nat
    = length lines.
Proof.
  intros Hscan.
  destruct (scan_consistent _ _ _ _ _ initial_consistent Hscan)
    as (_ & _ & Ht).
  rewrite <- (scan_total_records _ _ _ Hscan). by split.
Qed.

(** X12. No valid record has a blank name, a negative value or the
    value minus infinity: the value does not compare below zero, so it is
    at least zero or it is not a number. *)
Theorem valid_records_checked delimiter lines st :
  scan delimiter initial_state 1 lines = Ret st →
  Forall (fun r =>
            strip (rec_name r) ≠ []
            ∧ flt (rec_value r) fzero = false
            ∧ rec_value r ≠ S754_infinity true
            ∧ (fle fzero (rec_value r) = true ∨ rec_value r = S754_nan))
         (valid_records st).
Proof.
  intros Hscan.
  apply (scan_induction
           (fun s =>
              Forall (fun r =>
                        strip (rec_name r) ≠ []
                        ∧ flt (rec_value r) fzero = false
                        ∧ rec_value r ≠ S754_infinity true
                        ∧ (fle fzero (rec_value r) = true
                           ∨ rec_value r = S754_nan))
                     (valid_records s))
           delimiter initial_state 1%nat lines st);
    [constructor | | exact Hscan].
  intros st1 n line st2 Hall
    [(r & ? & ? & _ & _ & _ & Hname & _ & Hneg & _ & ->)
    |(errors & _ & ->)]%process_line_cases; [|done].
  cbn [valid_records]. apply Forall_app. split; [done|].
  apply Forall_singleton. split_and!; [done..| |by apply not_below_zero].
  intros Hinf. by rewrite Hinf in Hneg.
Qed.

(** X13. A scan only adds: from any state, the ids seen, the valid
    records, the rejected records and every count of the tally are kept
    or grow. *)
Theorem scan_only_adds delimiter st line_num lines st' :
  scan delimiter st line_num lines = Ret st' →
  seen_ids st ⊆ seen_ids st'
  ∧ valid_records st `prefix_of` valid_records st'
  ∧ invalid_records st `prefix_of` invalid_records st'
  ∧ ∀ error,
      (tally_get error (error_counts st)
       ≤ tally_get error (error_counts st'))%nat.
Proof.
  intros Hscan.
  apply (scan_induction
           (fun s =>
              seen_ids st ⊆ seen_ids s
              ∧ valid_records st `prefix_of` valid_records s
              ∧ invalid_records st `prefix_of` invalid_records s
              ∧ ∀ error,
                  (tally_get error (error_counts st)
                   ≤ tally_get error (error_counts s))%nat)
           delimiter st line_num lines st');
    [by split_and! | | exact Hscan].
  intros st1 n line st2 (Hseen & Hvalid & Hinvalid & Htally)
    [(r & ? & ? & _ & _ & _ & _ & _ & _ & _ & ->)
    |(errors & _ & ->)]%process_line_cases;
    cbn [seen_ids valid_records invalid_records error_counts].
  - split_and!; [|by etrans; [|apply prefix_app_r]|done..].
    by apply union_subseteq_r'.
  - split_and!; [done..|by etrans; [|apply prefix_app_r]|].
    intros error. rewrite tally_get_fold. specialize (Htally error). lia.
Qed.

Lemma duplicate_error_source id_str name value_str seen :
  u8 "ID: Дублирующийся идентификатор"
    ∈ field_errors id_str name value_str seen →
  ∃ id_num, int id_str = Some id_num ∧ id_num ∈ seen.
Proof.
  rewrite field_errors_spec.
  unfold spec_errors, spec_id_errors, spec_name_errors, spec_value_errors.
  intros Hin.
  destruct (int id_str) as [id_num|] eqn:Hid.
  - destruct (decide (id_num ∈ seen)) as [Hseen|Hseen]; [by exists id_num|].
    rewrite (bool_decide_eq_false_2 (id_num ∈ seen)) in Hin by done.
    repeat first [case_bool_decide | case_match]; refute_hypothesis Hin.
  - repeat first [case_bool_decide | case_match]; refute_hypothesis Hin.
Qed.

(** X19. The duplicate error is never reported without cause: a
    rejected record that carries it has three fields, and its id field
    parses to the id of a valid record. *)
Theorem duplicate_error_has_cause delimiter lines st :
  scan delimiter initial_state 1 lines = Ret st →
  Forall (fun rej : rejected =>
            u8 "ID: Дублирующийся идентификатор" ∈ rej.2 →
            ∃ id_str name value_str id_num,
              split rej.1.2 delimiter = Ret [id_str; name; value_str]
              ∧ int id_str = Some id_num
              ∧ id_num ∈ accepted_ids st)
         (invalid_records st).
Proof.
  intros Hscan.
  enough (consistent st
          ∧ ∀ ids, accepted_ids st ⊆ ids →
              Forall (fun rej : rejected =>
                        u8 "ID: Дублирующийся идентификатор" ∈ rej.2 →
                        ∃ id_str name value_str id_num,
                          split rej.1.2 delimiter
                          = Ret [id_str; name; value_str]
                          ∧ int id_str = Some id_num
                          ∧ id_num ∈ ids)
                     (invalid_records st)) as [_ Hall]
    by (by apply Hall).
  apply (scan_induction
           (fun s =>
              consistent s
              ∧ ∀ ids, accepted_ids s ⊆ ids →
                  Forall (fun rej : rejected =>
                            u8 "ID: Дублирующийся идентификатор" ∈ rej.2 →
                            ∃ id_str name value_str id_num,
                              split rej.1.2 delimiter
                              = Ret [id_str; name; value_str]
                              ∧ int id_str = Some id_num
                              ∧ id_num ∈ ids)
                         (invalid_records s))
           delimiter initial_state 1%nat lines st);
    [split; [apply initial_consistent | by constructor] | | exact Hscan].
  intros st1 n line st2 [Hc Hall] Hp.
  split; [by eapply process_line_consistent|].
  apply process_line_cases in Hp
    as [(r & ? & ? & _ & _ & _ & _ & _ & _ & _ & ->)|(errors & Hv & ->)];
    unfold accepted_ids; cbn [valid_records invalid_records];
    intros ids Hids.
  - apply Hall. rewrite fmap_app in Hids. unfold accepted_ids.
    intros id_num Hin. apply Hids, elem_of_app. by left.
  - apply Forall_app. split; [by apply Hall|].
    apply Forall_singleton. cbn [fst snd]. intros Hdup.
    destruct (validate_record_shape _ _ _ _ _ _ Hv)
      as [(parts & _ & _ & _ & -> & _)
         |(id_str & name & value_str & Hparts & -> & _)].
    + exfalso. apply list_elem_of_singleton in Hdup.
      apply (f_equal head) in Hdup. vm_compute in Hdup. discriminate.
    + destruct (duplicate_error_source _ _ _ _ Hdup) as (id_num & Hid & Hseen).
      exists id_str, name, value_str, id_num. split_and!; [done..|].
      apply Hids. destruct Hc as (Hseen_eq & _).
      rewrite Hseen_eq in Hseen. by apply elem_of_list_to_set in Hseen.
Qed.

End ScanMore.

(** ** Further properties of the report and of [process_file] *)

Section ReportMore.
Context `{Interpreter}.

Lemma py_min_Z (x : Z) (l : list Z) :
  py_min Z.ltb x l ∈ x :: l ∧ ∀ y, y ∈ x :: l → py_min Z.ltb x l ≤ y.
Proof.
  unfold py_min. revert x. induction l as [|z l IH]; intros x; simpl.
  - split; [by left|]. by intros y ->%list_elem_of_singleton.
  - destruct (IH (if z <? x then z else x)) as [Hin Hle]. split.
    + apply elem_of_cons in Hin as [->|Hin].
      * destruct (z <? x); [right; by left | by left].
      * by do 2 right.
    + intros y Hy.
      assert (fold_left (fun best item => if item <? best then item else best)
                        l (if z <? x then z else x)
              ≤ (if z <? x then z else x)) as Hhead by (apply Hle; by left).
      apply elem_of_cons in Hy as [->|[->|Hy]%elem_of_cons].
      * destruct (Z.ltb_spec z x); lia.
      * destruct (Z.ltb_spec z x); lia.
      * apply Hle. by right.
Qed.

Lemma py_max_Z (x : Z) (l : list Z) :
  py_max Z.ltb x l ∈ x :: l ∧ ∀ y, y ∈ x :: l → y ≤ py_max Z.ltb x l.
Proof.
  unfold py_max. revert x. induction l as [|z l IH]; intros x; simpl.
  - split; [by left|]. by intros y ->%list_elem_of_singleton.
  - destruct (IH (if x <? z then z else x)) as [Hin Hle]. split.
    + apply elem_of_cons in Hin as [->|Hin].
      * destruct (x <? z); [right; by left | by left].
      * by do 2 right.
    + intros y Hy.
      assert ((if x <? z then z else x)
              ≤ fold_left (fun best item => if best <? item then item else best)
                          l (if x <? z then z else x)) as Hhead
        by (apply Hle; by left).
      apply elem_of_cons in Hy as [->|[->|Hy]%elem_of_cons].
      * destruct (Z.ltb_spec x z); lia.
      * destruct (Z.ltb_spec x z); lia.
      * apply Hle. by right.
Qed.

(** X14. The range of ids in the report: with at least one valid record,
    the smallest and the largest id given are ids of valid records, and
    the id of every valid record lies between them. *)
Theorem id_range_bounds (valid : list parsed) :
  valid ≠ [] →
  min_id (aggregate valid) ∈ map rec_id valid
  ∧ max_id (aggregate valid) ∈ map rec_id valid
  ∧ ∀ r, r ∈ valid →
         min_id (aggregate valid) ≤ rec_id r ≤ max_id (aggregate valid).
Proof.
  destruct valid as [|r0 rest]; [done|]. intros _.
  cbn [aggregate min_id max_id map].
  destruct (py_min_Z (rec_id r0) (map rec_id rest)) as [Hmin_in Hmin].
  destruct (py_max_Z (rec_id r0) (map rec_id rest)) as [Hmax_in Hmax].
  split_and!; [done..|].
  intros r Hr.
  assert (rec_id r ∈ rec_id r0 :: map rec_id rest) as Hid
    by (by apply (list_elem_of_fmap_2 rec_id) in Hr).
  split; [by apply Hmin | by apply Hmax].
Qed.

Lemma Sorted_weaken {A} (R1 R2 : A → A → Prop) (l : list A) :
  (∀ a b, R1 a b → R2 a b) → Sorted R1 l → Sorted R2 l.
Proof.
  intros Himpl. induction 1 as [|x l _ IH Hhd]; constructor; [done|].
  destruct Hhd; constructor; auto.
Qed.

Lemma Sorted_strict (l : list parsed) :
  Sorted (fun a b => (rec_id a <=? rec_id b) = true) l →
  NoDup (map rec_id l) →
  Sorted (fun a b => rec_id a < rec_id b) l.
Proof.
  induction 1 as [|x l _ IH Hhd]; intros Hnodup; constructor.
  - apply IH. by apply NoDup_cons_1_2 in Hnodup.
  - destruct Hhd as [|y l Hxy]; constructor.
    apply Z.leb_le in Hxy. apply NoDup_cons_1_1 in Hnodup.
    assert (rec_id x ≠ rec_id y)
      by (intros Heq; apply Hnodup; rewrite Heq; by left).
    lia.
Qed.

(** X15. The section of the valid records lists every valid record once,
    by strictly increasing id. *)
Theorem valid_section_sorted delimiter lines st :
  scan delimiter initial_state 1 lines = Ret st →
  valid_records st ≠ [] →
  ∃ listed,
    valid_lines st = valid_heading :: map valid_line listed
    ∧ listed ≡ₚ valid_records st
    ∧ Sorted (fun a b => rec_id a < rec_id b) listed.
Proof.
  intros Hscan Hne.
  exists (sorted (fun x y => rec_id x <=? rec_id y) (valid_records st)).
  split_and!.
  - unfold valid_lines. by destruct (valid_records st).
  - apply sorted_perm.
  - apply Sorted_strict.
    + apply sorted_Sorted. intros a b Hab.
      apply Z.leb_gt in Hab. apply Z.leb_le. lia.
    + destruct (scan_consistent _ _ _ _ _ initial_consistent Hscan)
        as (_ & Hnodup & _).
      unfold accepted_ids in Hnodup.
      by rewrite (sorted_perm _ (valid_records st)).
Qed.

(** X16. The list of errors by type gives every entry of the tally once,
    in the order of the messages, code point by code point. *)
Theorem tally_section_sorted (st : state) :
  ∃ listed,
    tally_lines st
    = (nl ++ u8 "Полный список ошибок (по типам):")
        :: map (fun '(error, count) =>
                  u8 "  - " ++ error ++ u8 ": " ++ str_of_nat count)
               listed
    ∧ listed ≡ₚ error_counts st
    ∧ Sorted (fun a b : str * nat => str_compare a.1 b.1 ≠ Gt) listed.
Proof.
  exists (sorted item_le (error_counts st)). split_and!.
  - reflexivity.
  - apply sorted_perm.
  - eapply Sorted_weaken; [|apply sorted_Sorted, item_le_total].
    intros a b. unfold item_le. by destruct (str_compare a.1 b.1).
Qed.

Lemma lines_from_nonempty (s cur : str) :
  s ≠ [] ∨ cur ≠ [] → lines_from s cur ≠ [].
Proof.
  revert cur. induction s as [|c s IH]; intros cur Hne; simpl.
  - destruct Hne as [?|?]; [done|]. by destruct cur.
  - destruct (c =? 10)%N; [done|]. apply IH. by right.
Qed.

Lemma file_lines_nonempty (text : str) : text ≠ [] → file_lines text ≠ [].
Proof.
  intros Hne. unfold file_lines. apply lines_from_nonempty. left.
  destruct text as [|c text]; [done|]. simpl.
  destruct (c =? 13)%N; [done|]. by rewrite andb_false_r.
Qed.

(** X17. With the empty string as delimiter and an input file that is
    not empty, the run stops at the first line: [str.split] raises, the
    error is printed as a read error, the status is 1 and no report is
    written. *)
Theorem empty_delimiter_fatal fs input_path output_path text :
  fs !! input_path = Some (File text) →
  text ≠ [] →
  process_file fs input_path [] output_path
  = {| printed := [u8 "Ошибка при чтении файла: empty separator"];
       fs_after := fs; exit_code := Some 1 |}.
Proof.
  intros Hfile Htext.
  assert (read_and_scan fs input_path []
          = Raise (ValueError (u8 "empty separator"))) as Hscan.
  { unfold read_and_scan, open_read. rewrite Hfile. cbn [mbind result_bind].
    destruct (file_lines text) as [|line lines] eqn:Hlines;
      [by apply file_lines_nonempty in Htext|].
    done. }
  unfold process_file. rewrite Hscan.
  assert (msg_read_error (ValueError (u8 "empty separator"))
          = u8 "Ошибка при чтении файла: empty separator") as ->
    by (vm_compute; reflexivity).
  reflexivity.
Qed.

(** X18. What [process_file] does to its surroundings: it prints one
    line; it exits with status 1 or not at all; it changes no file other
    than the report; when it exits, and when the report cannot be
    opened for writing, it changes no file at all; and a report that
    cannot be written is an error printed, not an exit. *)
Theorem process_file_effects fs input_path delimiter output_path :
  let o := process_file fs input_path delimiter output_path in
  length (printed o) = 1%nat
  ∧ (exit_code o = None ∨ exit_code o = Some 1)
  ∧ (∀ path, path ≠ output_path → fs_after o !! path = fs !! path)
  ∧ (exit_code o = Some 1 → fs_after o = fs)
  ∧ (∀ msg st,
       fs !! output_path = Some (Blocked msg) →
       read_and_scan fs input_path delimiter = Ret st →
       o = {| printed := [u8 "Ошибка при сохранении отчёта: " ++ msg];
              fs_after := fs; exit_code := None |}).
Proof.
  intros o. subst o. unfold process_file, open_write.
  destruct (read_and_scan fs input_path delimiter) as [st|e] eqn:Hscan.
  - destruct (fs !! output_path) as [[text|msg]|] eqn:Hout;
      cbn [printed exit_code fs_after];
      (split_and!;
       [done | by left
       | intros path Hp; by rewrite ?lookup_insert_ne
       | done
       | intros msg' st' ? ?; by simplify_eq ]).
  - destruct e; cbn [printed exit_code fs_after];
      (split_and!; [done | by right | done | done | done]).
Qed.

End ReportMore.

(** ** The further properties at concrete inputs *)

Lemma validate_record_verdict_witness :
  @validate_record plain_interpreter (u8 "1,Gadget,-3") (u8 ",") {[1]}
  = Ret (false,
         [u8 "ID: Дублирующийся идентификатор";
          u8 "Value: Отрицательное значение"], {[1]})
  ∧ (false = true
     ↔ [u8 "ID: Дублирующийся идентификатор";
        u8 "Value: Отрицательное значение"] = [])
  ∧ (length [u8 "ID: Дублирующийся идентификатор";
             u8 "Value: Отрицательное значение"] ≤ 3)%nat.
Proof.
  assert (@validate_record plain_interpreter (u8 "1,Gadget,-3") (u8 ",") {[1]}
          = Ret (false,
                 [u8 "ID: Дублирующийся идентификатор";
                  u8 "Value: Отрицательное значение"], {[1]})) as Hv
    by (vm_compute; reflexivity).
  split; [exact Hv|].
  exact (@validate_record_verdict plain_interpreter _ _ _ _ _ _ Hv).
Defined.

Lemma blank_fields_reported_witness :
  split (strip (u8 ",NoId,5")) (u8 ",") = Ret [[]; u8 "NoId"; u8 "5"]
  ∧ @validate_record plain_interpreter (u8 ",NoId,5") (u8 ",") ∅
    = Ret (false, [u8 "ID: Пустой идентификатор"], ∅)
  ∧ (u8 "ID: Пустой идентификатор" ∈ [u8 "ID: Пустой идентификатор"]
     ↔ strip ([] : str) = []).
Proof.
  assert (split (strip (u8 ",NoId,5")) (u8 ",")
          = Ret [[]; u8 "NoId"; u8 "5"]) as Hparts
    by (vm_compute; reflexivity).
  assert (@validate_record plain_interpreter (u8 ",NoId,5") (u8 ",") ∅
          = Ret (false, [u8 "ID: Пустой идентификатор"], ∅)) as Hv
    by (vm_compute; reflexivity).
  split_and!; [exact Hparts | exact Hv |].
  exact (proj1 (@blank_fields_reported plain_interpreter
                  _ _ _ _ _ _ _ _ _ Hparts Hv)).
Defined.

Lemma acceptance_against_seen_ids_witness :
  (∃ errors seen',
     @validate_record plain_interpreter (u8 "1,Widget,10.5") (u8 ",") {[2]}
     = Ret (true, errors, seen'))
  ∧ ∃ id_num,
      @validate_record plain_interpreter (u8 "1,Widget,10.5") (u8 ",") ∅
      = Ret (true, [], {[id_num]})
      ∧ id_num ∉ ({[2]} : gset Z).
Proof.
  assert (∃ errors seen',
            @validate_record plain_interpreter
              (u8 "1,Widget,10.5") (u8 ",") {[2]}
            = Ret (true, errors, seen')) as Hv
    by (exists [], ({[1]} ∪ {[2]}); vm_compute; reflexivity).
  split; [exact Hv|].
  exact (proj1 (@acceptance_against_seen_ids plain_interpreter
                  (u8 "1,Widget,10.5") (u8 ",") {[2]}) Hv).
Defined.

Lemma blank_line_rejected_witness :
  u8 "," ≠ []
  ∧ Forall (fun c => is_space c = true) (u8 "  " ++ nl)
  ∧ @validate_record plain_interpreter (u8 "  " ++ nl) (u8 ",") {[1]}
    = Ret (false, [u8 "Ожидается 3 поля, получено 1"], {[1]}).
Proof.
  assert (u8 "," ≠ []) as Hd by (vm_compute; discriminate).
  assert (Forall (fun c => is_space c = true) (u8 "  " ++ nl)) as Hline
    by (repeat constructor).
  split_and!; [exact Hd | exact Hline |].
  exact (@blank_line_rejected plain_interpreter _ _ {[1]} Hd Hline).
Defined.

Lemma internal_errors_never_reported_witness :
  (u8 "Внутренняя ошибка обработки" ∉ reported_errors scenario_state)
  ∧ (u8 "Внутренняя ошибка: не удалось преобразовать ID"
       ∉ reported_errors scenario_state)
  ∧ tally_get (u8 "Внутренняя ошибка обработки")
      (error_counts scenario_state) = 0%nat.
Proof.
  apply (@internal_errors_never_reported plain_interpreter
           (u8 ",") (file_lines scenario_text)).
  vm_compute; reflexivity.
Defined.

Lemma tally_counts_reported_errors_witness :
  (∀ error,
     tally_get error (error_counts scenario_state)
     = length (filter (fun e => e = error) (reported_errors scenario_state)))
  ∧ foldr Nat.add 0%nat (map snd (error_counts scenario_state))
    = length (reported_errors scenario_state)
  ∧ (length (invalid_records scenario_state)
     ≤ length (reported_errors scenario_state))%nat
  ∧ (length (reported_errors scenario_state)
     ≤ 3 * length (invalid_records scenario_state))%nat.
Proof.
  apply (@tally_counts_reported_errors plain_interpreter
           (u8 ",") (file_lines scenario_text)).
  vm_compute; reflexivity.
Defined.

Lemma tally_keys_reported_errors_witness :
  NoDup (error_counts scenario_state).*1
  ∧ Forall (fun kn : str * nat => (0 < kn.2)%nat) (error_counts scenario_state)
  ∧ ∀ error,
      error ∈ (error_counts scenario_state).*1
      ↔ error ∈ reported_errors scenario_state.
Proof.
  apply (@tally_keys_reported_errors plain_interpreter
           (u8 ",") (file_lines scenario_text)).
  vm_compute; reflexivity.
Defined.

Lemma rejected_records_numbered_witness :
  map (fun rej : rejected => rej.1) (invalid_records scenario_state)
    `sublist_of` zip (seq 1 (length (file_lines scenario_text)))
                     (map strip (file_lines scenario_text))
  ∧ Forall (fun rej : rejected =>
              ∃ seen,
                @validate_record plain_interpreter rej.1.2 (u8 ",") seen
                = Ret (false, rej.2, seen))
           (invalid_records scenario_state).
Proof.
  apply (@rejected_records_numbered plain_interpreter
           (u8 ",") (file_lines scenario_text)).
  vm_compute; reflexivity.
Defined.

Lemma valid_records_from_lines_witness :
  map rec_original (valid_records scenario_state)
    `sublist_of` map strip (file_lines scenario_text)
  ∧ Forall (fun r =>
              ∃ id_str value_str,
                split (rec_original r) (u8 ",")
                = Ret [id_str; rec_name r; value_str]
                ∧ @int plain_interpreter id_str = Some (rec_id r)
                ∧ @float plain_interpreter value_str = Some (rec_value r)
                ∧ rec_original r
                  = id_str ++ u8 "," ++ rec_name r ++ u8 "," ++ value_str)
           (valid_records scenario_state).
Proof.
  apply (@valid_records_from_lines plain_interpreter
           (u8 ",") (file_lines scenario_text)).
  vm_compute; reflexivity.
Defined.

Lemma every_line_counted_witness :
  total_records scenario_state = length (file_lines scenario_text)
  ∧ (length (valid_records scenario_state)
     + length (invalid_records scenario_state))%nat
    = length (file_lines scenario_text).
Proof.
  apply (@every_line_counted plain_interpreter (u8 ",")).
  vm_compute; reflexivity.
Defined.

Lemma valid_records_checked_witness :
  Forall (fun r =>
            strip (rec_name r) ≠ []
            ∧ flt (rec_value r) fzero = false
            ∧ rec_value r ≠ S754_infinity true
            ∧ (fle fzero (rec_value r) = true ∨ rec_value r = S754_nan))
         (valid_records scenario_state).
Proof.
  apply (@valid_records_checked plain_interpreter
           (u8 ",") (file_lines scenario_text)).
  vm_compute; reflexivity.
Defined.

Lemma scan_only_adds_witness :
  seen_ids initial_state ⊆ seen_ids scenario_state
  ∧ valid_records initial_state `prefix_of` valid_records scenario_state
  ∧ invalid_records initial_state `prefix_of` invalid_records scenario_state
  ∧ ∀ error,
      (tally_get error (error_counts initial_state)
       ≤ tally_get error (error_counts scenario_state))%nat.
Proof.
  apply (@scan_only_adds plain_interpreter
           (u8 ",") initial_state 1%nat (file_lines scenario_text)).
  vm_compute; reflexivity.
Defined.

Lemma id_range_bounds_witness :
  valid_records scenario_state ≠ []
  ∧ min_id (@aggregate plain_interpreter (valid_records scenario_state))
      ∈ map rec_id (valid_records scenario_state).
Proof.
  assert (valid_records scenario_state ≠ []) as Hne
    by (vm_compute; discriminate).
  split; [exact Hne|].
  exact (proj1 (@id_range_bounds plain_interpreter _ Hne)).
Defined.

Lemma valid_section_sorted_witness :
  valid_records scenario_state ≠ []
  ∧ ∃ listed,
      valid_lines scenario_state = valid_heading :: map valid_line listed
      ∧ listed ≡ₚ valid_records scenario_state
      ∧ Sorted (fun a b => rec_id a < rec_id b) listed.
Proof.
  assert (valid_records scenario_state ≠ []) as Hne
    by (vm_compute; discriminate).
  split; [exact Hne|].
  apply (@valid_section_sorted plain_interpreter
           (u8 ",") (file_lines scenario_text));
    [vm_compute; reflexivity | exact Hne].
Defined.

Lemma empty_delimiter_fatal_witness :
  let fs : gmap str node := {[ u8 "data.txt" := File scenario_text ]} in
  fs !! u8 "data.txt" = Some (File scenario_text)
  ∧ scenario_text ≠ []
  ∧ @process_file plain_interpreter fs (u8 "data.txt") [] (u8 "report.txt")
    = {| printed := [u8 "Ошибка при чтении файла: empty separator"];
         fs_after := fs; exit_code := Some 1 |}.
Proof.
  intros fs.
  assert (fs !! u8 "data.txt" = Some (File scenario_text)) as Hfile
    by (vm_compute; reflexivity).
  assert (scenario_text ≠ []) as Htext by (vm_compute; discriminate).
  split_and!; [exact Hfile | exact Htext |].
  exact (@empty_delimiter_fatal plain_interpreter
           fs (u8 "data.txt") (u8 "report.txt") scenario_text Hfile Htext).
Defined.

Lemma process_file_effects_witness :
  let fs : gmap str node :=
    {[ u8 "data.txt" := File scenario_text;
       u8 "report.txt" := Blocked (u8 "[Errno 21] Is a directory") ]} in
  fs !! u8 "report.txt" = Some (Blocked (u8 "[Errno 21] Is a directory"))
  ∧ @read_and_scan plain_interpreter fs (u8 "data.txt") (u8 ",")
    = Ret scenario_state
  ∧ @process_file plain_interpreter fs
      (u8 "data.txt") (u8 ",") (u8 "report.txt")
    = {| printed := [u8 "Ошибка при сохранении отчёта: "
                       ++ u8 "[Errno 21] Is a directory"];
         fs_after := fs; exit_code := None |}.
Proof.
  intros fs.
  assert (fs !! u8 "report.txt"
          = Some (Blocked (u8 "[Errno 21] Is a directory"))) as Hout
    by (vm_compute; reflexivity).
  assert (@read_and_scan plain_interpreter fs (u8 "data.txt") (u8 ",")
          = Ret scenario_state) as Hscan by (vm_compute; reflexivity).
  split_and!; [exact Hout | exact Hscan |].
  destruct (@process_file_effects plain_interpreter
              fs (u8 "data.txt") (u8 ",") (u8 "report.txt"))
    as (_ & _ & _ & _ & Hblocked).
  exact (Hblocked _ _ Hout Hscan).
Defined.

Lemma duplicate_error_has_cause_witness :
  Forall (fun rej : rejected =>
            u8 "ID: Дублирующийся идентификатор" ∈ rej.2 →
            ∃ id_str name value_str id_num,
              split rej.1.2 (u8 ",") = Ret [id_str; name; value_str]
              ∧ @int plain_interpreter id_str = Some id_num
              ∧ id_num ∈ accepted_ids scenario_state)
         (invalid_records scenario_state).
Proof.
  apply (@duplicate_error_has_cause plain_interpreter
           (u8 ",") (file_lines scenario_text)).
  vm_compute; reflexivity.
Defined.
